(** * Kitab: the recitation identification pipeline of [app.js]

    A shallow embedding of the pure core of [app.js]: the Arabic text
    normalizer, the trigram / Jaccard scorer, the candidate index, the
    local matcher, the coercion of the remote reply, the label
    formatter, the surah-name resolver, the recitation player and the
    chain of [toProcessing] that ends on the result card or on an error
    line.

    Data model.
    - A JavaScript string is its sequence of UTF-16 code units; the
      regular expressions of [app.js] carry no [u] flag, so they work
      one code unit at a time.  A code unit is a [Z].
    - A JavaScript [Set] of strings is the list of its elements in
      insertion order, without duplicates.
    - A score [inter / union] is kept as the exact rational.  The
      double that JavaScript computes is the one nearest to that
      rational; for sets of fewer than 2^26 trigrams two different
      rationals round to two different doubles and rounding keeps the
      order, so [>] between scores, [>= 0.12] and [== 1] give the same
      answers on the rationals as on the doubles.
    - A number is [NaN], an infinity or a finite rational.  A
      difference is read for its sign only, which is exact; a sum is
      exact on whole numbers between -2^53 and 2^53, and the statements
      that read a sum keep to these.
    - A conversion or a call that can throw a [TypeError] returns an
      [option], [None] for the throw, or a [completion]. *)

From Stdlib Require Import ZArith QArith Lia String Ascii.
From stdpp Require Import base decidable list sorting sets gmap.

Local Open Scope Z_scope.

Set Warnings "-clear-no-such-hyp,-register-all".

(** ** Strings *)

Abbreviation str := (list Z).

Definition in_range (lo hi c : Z) : bool := (lo <=? c) && (c <=? hi).

(** The code units matched by [\s] in a regular expression; [trim]
    strips the same ones (WhiteSpace and LineTerminator of ECMAScript). *)
Definition is_space (c : Z) : bool :=
  in_range 0x0009 0x000D c || (c =? 0x0020) || (c =? 0x00A0) || (c =? 0x1680)
  || in_range 0x2000 0x200A c || (c =? 0x2028) || (c =? 0x2029)
  || (c =? 0x202F) || (c =? 0x205F) || (c =? 0x3000) || (c =? 0xFEFF).

Definition SPACE : Z := 0x0020.

(** [s.replace(/[class]/g, '')] *)
Definition remove_all (cls : Z → bool) (s : str) : str :=
  filter (λ c, ¬ cls c) s.

(** [s.replace(/[class]/g, r)] with a one-unit replacement [r] *)
Definition replace_all (cls : Z → bool) (r : Z) (s : str) : str :=
  (λ c, if cls c then r else c) <$> s.

(** [s.replace(/\s+/g, ' ')]: every maximal run of white space becomes
    one space.  [in_run] tells that the previous unit was white space. *)
Fixpoint replace_space_runs (in_run : bool) (s : str) : str :=
  match s with
  | [] => []
  | c :: r =>
      if is_space c
      then (if in_run then replace_space_runs true r
            else SPACE :: replace_space_runs true r)
      else c :: replace_space_runs false r
  end.

Fixpoint trimStart (s : str) : str :=
  match s with
  | [] => []
  | c :: r => if is_space c then trimStart r else s
  end.

Fixpoint trimEnd (s : str) : str :=
  match s with
  | [] => []
  | c :: r =>
      match trimEnd r with
      | [] => if is_space c then [] else [c]
      | r' => c :: r'
      end
  end.

(** [s.trim()] *)
Definition trim (s : str) : str := trimEnd (trimStart s).

(** ** Text normalizer: [normalizeArabic] *)

(** [[\u064B-\u065F\u0670\u06D6-\u06ED]], harakat and signs *)
Definition is_harakat (c : Z) : bool :=
  in_range 0x064B 0x065F c || (c =? 0x0670) || in_range 0x06D6 0x06ED c.

(** [[\u0610-\u061A\u06EE\u06EF]] *)
Definition is_mark (c : Z) : bool :=
  in_range 0x0610 0x061A c || (c =? 0x06EE) || (c =? 0x06EF).

(** [[\u0622\u0623\u0625]], the alif variations *)
Definition is_alif_variant (c : Z) : bool :=
  (c =? 0x0622) || (c =? 0x0623) || (c =? 0x0625).

(** [[\u0649]], alif maqsura *)
Definition is_alif_maqsura (c : Z) : bool := c =? 0x0649.

(** [[\u0629]], ta marbuta *)
Definition is_ta_marbuta (c : Z) : bool := c =? 0x0629.

(** [\u0600-\u06FF], the Arabic block *)
Definition is_arabic (c : Z) : bool := in_range 0x0600 0x06FF c.

(** [[^\u0600-\u06FF\s]] *)
Definition is_foreign (c : Z) : bool := negb (is_arabic c || is_space c).

Definition ALIF : Z := 0x0627.
Definition YA : Z := 0x064A.
Definition HA : Z := 0x0647.

(** The replacements of [normalizeArabic] up to, and without, the white
    space steps. *)
Definition fold_letters (text : str) : str :=
  replace_all is_foreign SPACE
    (replace_all is_ta_marbuta HA
      (replace_all is_alif_maqsura YA
        (replace_all is_alif_variant ALIF
          (remove_all is_mark
            (remove_all is_harakat text))))).

(** [normalizeArabic(text)].  The guard [if (!text) return ''] returns
    the empty string on the empty string, as the chain below does. *)
Definition normalizeArabic (text : str) : str :=
  match text with
  | [] => []
  | _ => trim (replace_space_runs false (fold_letters text))
  end.

(** The code units a normalized string is made of: the space, and the
    Arabic letters that no replacement of [normalizeArabic] touches. *)
Definition settled (c : Z) : bool :=
  (c =? SPACE)
  || (is_arabic c && negb (is_harakat c) && negb (is_mark c)
      && negb (is_alif_variant c) && negb (is_alif_maqsura c)
      && negb (is_ta_marbuta c)).

(** Every white space unit of [s] is a space and follows a unit that is
    not white space ([in_run]: the unit before [s] was white space). *)
Fixpoint single_spaced (in_run : bool) (s : str) : Prop :=
  match s with
  | [] => True
  | c :: r =>
      if is_space c then c = SPACE ∧ in_run = false ∧ single_spaced true r
      else single_spaced false r
  end.

(** No two consecutive white space units. *)
Definition no_double_space (s : str) : Prop :=
  ∀ (i : nat) a b, s !! i = Some a → s !! S i = Some b →
    ¬ (is_space a ∧ is_space b).

(** The strings [normalizeArabic] leaves as they are. *)
Definition normalized (s : str) : Prop :=
  Forall (λ c, settled c) s
  ∧ single_spaced false s
  ∧ (∀ c, head s = Some c → ¬ is_space c)
  ∧ (∀ c, last s = Some c → ¬ is_space c).

(** What [fold_letters] does to one code unit that it keeps. *)
Definition fold_unit (c : Z) : Z :=
  let c1 := if is_alif_variant c then ALIF else c in
  let c2 := if is_alif_maqsura c1 then YA else c1 in
  let c3 := if is_ta_marbuta c2 then HA else c2 in
  if is_foreign c3 then SPACE else c3.


(** ** N-gram similarity scorer: [toTrigrams], [jaccard] *)

(** A [Set] of strings: its elements in insertion order. *)
Abbreviation StringSet := (list (list Z)).

(** [set.has(x)] *)
Definition Set_has (set : StringSet) (x : str) : bool := bool_decide (x ∈ set).

(** [set.add(x)] *)
Definition Set_add (set : StringSet) (x : str) : StringSet :=
  if Set_has set x then set else set ++ [x].

(** [new Set(arr)] *)
Definition new_Set (arr : list str) : StringSet := foldl Set_add [] arr.

(** [set.size] *)
Definition Set_size (set : StringSet) : Z := Z.of_nat (length set).

(** [s.slice(i, j)] for [0 <= i <= j] *)
Definition slice (s : str) (i j : nat) : str := take (j - i) (drop i s).

(** [toTrigrams(s)]: the loop runs [i] over [0 .. s.length - 3]; it does
    not run when [s.length - 2] is zero or negative. *)
Definition toTrigrams (s : str) : StringSet :=
  new_Set ((λ i, slice s i (i + 3)) <$> seq 0 (length s - 2)).

(** The counter [inter] of [jaccard] after the loop over [aSet]. *)
Definition count_common (aSet bSet : StringSet) : Z :=
  foldl (λ inter x, if Set_has bSet x then inter + 1 else inter) 0 aSet.

(** [jaccard(aSet, bSet)] *)
Definition jaccard (aSet bSet : StringSet) : Q :=
  let inter := count_common aSet bSet in
  let union :=
    let u := Set_size aSet + Set_size bSet - inter in
    if u =? 0 then 1 else u in
  (inject_Z inter / inject_Z union)%Q.

(** The Jaccard index as the specification words it, on finite sets:
    the size of the intersection over the size of the union. *)
Definition jaccard_index (A B : gset (list Z)) : Q :=
  (inject_Z (Z.of_nat (size (A ∩ B))) / inject_Z (Z.of_nat (size (A ∪ B))))%Q.

(** The finite set a [Set] stands for. *)
Definition members (set : StringSet) : gset (list Z) := list_to_set set.


(** ** String literals and numbers *)

(** The UTF-16 code units of a source literal, read from its UTF-8
    bytes. *)
Fixpoint utf16 (bytes : list Z) : str :=
  match bytes with
  | [] => []
  | b0 :: r0 =>
      if b0 <? 0x80 then b0 :: utf16 r0
      else
        match r0 with
        | [] => []
        | b1 :: r1 =>
            if b0 <? 0xE0
            then Z.lor (Z.shiftl (Z.land b0 0x1F) 6) (Z.land b1 0x3F)
                 :: utf16 r1
            else
              match r1 with
              | [] => []
              | b2 :: r2 =>
                  if b0 <? 0xF0
                  then Z.lor (Z.shiftl (Z.land b0 0x0F) 12)
                         (Z.lor (Z.shiftl (Z.land b1 0x3F) 6) (Z.land b2 0x3F))
                       :: utf16 r2
                  else
                    match r2 with
                    | [] => []
                    | b3 :: r3 =>
                        let cp :=
                          Z.lor (Z.shiftl (Z.land b0 0x07) 18)
                            (Z.lor (Z.shiftl (Z.land b1 0x3F) 12)
                               (Z.lor (Z.shiftl (Z.land b2 0x3F) 6)
                                  (Z.land b3 0x3F))) in
                        (0xD800 + Z.shiftr (cp - 0x10000) 10)
                        :: (0xDC00 + Z.land (cp - 0x10000) 0x3FF)
                        :: utf16 r3
                    end
              end
        end
  end.

(** A string literal of [app.js]. *)
Definition js (literal : string) : str :=
  utf16 ((λ a, Z.of_nat (nat_of_ascii a)) <$> list_ascii_of_string literal).

Fixpoint uint_units (d : Decimal.uint) : str :=
  match d with
  | Decimal.Nil => []
  | Decimal.D0 d => 0x30 :: uint_units d
  | Decimal.D1 d => 0x31 :: uint_units d
  | Decimal.D2 d => 0x32 :: uint_units d
  | Decimal.D3 d => 0x33 :: uint_units d
  | Decimal.D4 d => 0x34 :: uint_units d
  | Decimal.D5 d => 0x35 :: uint_units d
  | Decimal.D6 d => 0x36 :: uint_units d
  | Decimal.D7 d => 0x37 :: uint_units d
  | Decimal.D8 d => 0x38 :: uint_units d
  | Decimal.D9 d => 0x39 :: uint_units d
  end.

(** [String(n)] for an array index or a count [n] *)
Definition String_of_nat (n : nat) : str := uint_units (Nat.to_uint n).

(** A JavaScript number: a finite double is kept as the rational it
    denotes ([-0] and [0] are the same rational). *)
Inductive number : Type :=
  | NaN
  | Infinity (negative : bool)
  | Finite (q : Q).

Definition number_of_Z (z : Z) : number := Finite (inject_Z z).
Definition number_of_nat (n : nat) : number := number_of_Z (Z.of_nat n).

(** A value that [JSON.parse] can return. *)
Inductive value : Type :=
  | VNull
  | VBool (b : bool)
  | VNum (n : number)
  | VStr (s : list Z)
  | VArr (items : list value)
  | VObj (props : list (list Z * value)).

(** ToBoolean on numbers and on strings *)
Definition truthy_number (n : number) : bool :=
  match n with
  | NaN => false
  | Infinity _ => true
  | Finite q => negb (Qnum q =? 0)
  end.

Definition truthy_str (s : str) : bool :=
  match s with [] => false | _ => true end.

(** ToBoolean on a property that may be missing ([undefined]) *)
Definition truthy_field (f : option number) : bool :=
  match f with
  | None => false
  | Some n => truthy_number n
  end.

(** ** Corpus candidate index: [buildCandidates] *)

Module Ayah.
Record t : Type := mk { text : list Z }.
End Ayah.

Module Surah.
Record t : Type := mk {
  englishName : list Z;
  nameArabic : list Z;
  ayahs : list Ayah.t
}.
End Surah.

Module Corpus.
Record t : Type := mk { surahs : list Surah.t }.
End Corpus.

(** The objects pushed by [buildCandidates]; a property that the
    object literal does not set is [None]. *)
Module Candidate.
Record t : Type := mk {
  surah : list Z;
  ayah : option number;
  ayahStart : option number;
  ayahEnd : option number;
  text : list Z
}.
End Candidate.

(** [s.ayahs[i].text || ''], for [i < s.ayahs.length] *)
Definition ayah_text (s : Surah.t) (i : nat) : str :=
  match Surah.ayahs s !! i with
  | Some a => Ayah.text a
  | None => []
  end.

(** [s.nameArabic || `سورة ${si + 1}`] *)
Definition arName (si : nat) (s : Surah.t) : str :=
  if truthy_str (Surah.nameArabic s) then Surah.nameArabic s
  else js "سورة " ++ String_of_nat (si + 1).

(** [{ surah: arName, ayah: i + 1, text: t1 }] *)
Definition single_candidate (si : nat) (s : Surah.t) (i : nat) : Candidate.t :=
  {| Candidate.surah := arName si s;
     Candidate.ayah := Some (number_of_nat (i + 1));
     Candidate.ayahStart := None;
     Candidate.ayahEnd := None;
     Candidate.text := ayah_text s i |}.

(** [{ surah: arName, ayahStart: i + 1, ayahEnd: i + 2, text: `${t1} ${t2}` }] *)
Definition pair_candidate (si : nat) (s : Surah.t) (i : nat) : Candidate.t :=
  {| Candidate.surah := arName si s;
     Candidate.ayah := None;
     Candidate.ayahStart := Some (number_of_nat (i + 1));
     Candidate.ayahEnd := Some (number_of_nat (i + 2));
     Candidate.text := ayah_text s i ++ [SPACE] ++ ayah_text s (i + 1) |}.

(** One turn of the inner [for] loop: the pushes for verse index [i]. *)
Definition push_verse (si : nat) (s : Surah.t)
    (candidates : list Candidate.t) (i : nat) : list Candidate.t :=
  let candidates := candidates ++ [single_candidate si s i] in
  if (i + 1 <? length (Surah.ayahs s))%nat
  then candidates ++ [pair_candidate si s i]
  else candidates.

(** One call of the [forEach] callback: the inner loop for chapter [s]
    at index [si]. *)
Definition push_surah (candidates : list Candidate.t)
    (entry : nat * Surah.t) : list Candidate.t :=
  let '(si, s) := entry in
  foldl (push_verse si s) candidates (seq 0 (length (Surah.ayahs s))).

(** [buildCandidates(corpus)] *)
Definition buildCandidates (corpus : Corpus.t) : list Candidate.t :=
  foldl push_surah [] (imap pair (Corpus.surahs corpus)).

(** The candidates of one chapter, listed verse by verse: the single
    verse first, then the pair it opens when a next verse exists. *)
Definition chapter_block (si : nat) (s : Surah.t) : list Candidate.t :=
  i ← seq 0 (length (Surah.ayahs s));
  single_candidate si s i
  :: (if decide (i + 1 < length (Surah.ayahs s))%nat
      then [pair_candidate si s i] else []).

(** N, the number of verses of the corpus. *)
Definition total_verses (corpus : Corpus.t) : Z :=
  Z.of_nat (sum_list (length ∘ Surah.ayahs <$> Corpus.surahs corpus)).

(** C, the number of chapters of the corpus. *)
Definition total_chapters (corpus : Corpus.t) : Z :=
  Z.of_nat (length (Corpus.surahs corpus)).

(** The number of chapters that hold at least one verse. *)
Definition nonempty_chapters (corpus : Corpus.t) : Z :=
  Z.of_nat (length (filter (λ s, Surah.ayahs s ≠ []) (Corpus.surahs corpus))).


(** ** Local matcher: [identifyByCorpus] *)

(** The object handed to the renderer and to the player.  A property
    that is not set is [None]. *)
Module Result.
Record t : Type := mk {
  surah : value;
  arabic : value;
  translation : value;
  ayah : option number;
  ayahStart : option number;
  ayahEnd : option number;
  ayahs : option (list number)
}.
End Result.

(** [a > b] on scores *)
Definition Qgtb (a b : Q) : bool := negb (Qle_bool a b).

(** The literal [0.12] *)
Definition THRESHOLD : Q := 12 # 100.

(** One turn of the loop over the candidates; [best] is the pair of the
    candidate kept so far and its score ([{ ...c, score }]), [None] for
    [null]. *)
Definition scan_candidate (tSet : StringSet)
    (best : option (Candidate.t * Q)) (c : Candidate.t)
    : option (Candidate.t * Q) :=
  let cNorm := normalizeArabic (Candidate.text c) in
  if truthy_str cNorm then
    let cSet := toTrigrams cNorm in
    let score := jaccard tSet cSet in
    match best with
    | None => Some (c, score)
    | Some (_, best_score) =>
        if Qgtb score best_score then Some (c, score) else best
    end
  else best.

(** [best] after the loop *)
Definition best_candidate (tSet : StringSet) (candidates : list Candidate.t)
    : option (Candidate.t * Q) :=
  foldl (scan_candidate tSet) None candidates.

(** The object returned for the winning candidate. *)
Definition match_result (best : Candidate.t) : Result.t :=
  let base :=
    {| Result.surah := VStr (Candidate.surah best);
       Result.arabic := VStr (Candidate.text best);
       Result.translation := VStr (js "—");
       Result.ayah := None;
       Result.ayahStart := None;
       Result.ayahEnd := None;
       Result.ayahs := None |} in
  if truthy_field (Candidate.ayah best)
     && negb (truthy_field (Candidate.ayahEnd best))
  then {| Result.surah := Result.surah base;
          Result.arabic := Result.arabic base;
          Result.translation := Result.translation base;
          Result.ayah := Candidate.ayah best;
          Result.ayahStart := None;
          Result.ayahEnd := None;
          Result.ayahs := None |}
  else if truthy_field (Candidate.ayahStart best)
          && truthy_field (Candidate.ayahEnd best)
  then {| Result.surah := Result.surah base;
          Result.arabic := Result.arabic base;
          Result.translation := Result.translation base;
          Result.ayah := None;
          Result.ayahStart := Candidate.ayahStart best;
          Result.ayahEnd := Candidate.ayahEnd best;
          Result.ayahs := None |}
  else base.

(** [identifyByCorpus(transcript)]; [corpus] is what [loadQuranCorpus]
    resolved to, [None] for [null]. *)
Definition identifyByCorpus (corpus : option Corpus.t) (transcript : str)
    : option Result.t :=
  match corpus with
  | None => None
  | Some corpus =>
      let T := normalizeArabic transcript in
      if truthy_str T then
        let tSet := toTrigrams T in
        let candidates := buildCandidates corpus in
        match best_candidate tSet candidates with
        | Some (best, score) =>
            if Qle_bool THRESHOLD score then Some (match_result best)
            else None
        | None => None
        end
      else None
  end.

(** The score of a candidate against the trigrams of the transcript. *)
Definition score_of (tSet : StringSet) (c : Candidate.t) : Q :=
  jaccard tSet (toTrigrams (normalizeArabic (Candidate.text c))).

(** The candidates the loop scores: those whose normalized text is not
    empty. *)
Definition scored (c : Candidate.t) : Prop :=
  normalizeArabic (Candidate.text c) ≠ [].

(** [best] is the first of the highest scoring candidates: nothing
    scores higher, and nothing before place [k] scores as high. *)
Definition first_best (tSet : StringSet) (candidates : list Candidate.t)
    (k : nat) (best : Candidate.t) : Prop :=
  candidates !! k = Some best
  ∧ scored best
  ∧ ∀ (j : nat) c, candidates !! j = Some c → scored c →
      (score_of tSet c <= score_of tSet best)%Q
      ∧ ((j < k)%nat → (score_of tSet c < score_of tSet best)%Q).


(** ** Numbers and JSON values *)

(** [a - b].  The sign of the double is the sign of the exact
    difference. *)
Definition number_sub (a b : number) : number :=
  match a, b with
  | NaN, _ | _, NaN => NaN
  | Infinity na, Infinity nb => if Bool.eqb na nb then NaN else Infinity na
  | Infinity na, Finite _ => Infinity na
  | Finite _, Infinity nb => Infinity (negb nb)
  | Finite qa, Finite qb => Finite (qa - qb)
  end.

(** [v > 0], for the value [v] a comparator returns; [NaN] counts as 0. *)
Definition is_positive (v : number) : bool :=
  match v with
  | NaN => false
  | Infinity negative => negb negative
  | Finite q => 0 <? Qnum q
  end.

(** A number is an integer. *)
Definition is_integer (n : number) : bool :=
  match n with
  | Finite q => Qnum q mod Zpos (Qden q) =? 0
  | _ => false
  end.

(** [arr.sort(compare)] for a comparator that orders the elements of
    [arr] consistently: the sort is stable, so it is the insertion of
    each element, in turn, behind the elements that do not sort after
    it. *)
Fixpoint sort_insert (compare : number → number → number) (x : number)
    (sorted : list number) : list number :=
  match sorted with
  | [] => [x]
  | y :: r =>
      if is_positive (compare y x) then x :: y :: r
      else y :: sort_insert compare x r
  end.

Definition Array_sort (compare : number → number → number)
    (arr : list number) : list number :=
  foldl (λ sorted x, sort_insert compare x sorted) [] arr.

(** ToBoolean *)
Definition truthy (v : value) : bool :=
  match v with
  | VNull => false
  | VBool b => b
  | VNum n => truthy_number n
  | VStr s => truthy_str s
  | VArr _ | VObj _ => true
  end.

(** The own property [key] of an object, [None] for [undefined]. *)
Fixpoint lookup_prop (key : str) (props : list (list Z * value))
    : option value :=
  match props with
  | [] => None
  | (k, v) :: r => if decide (k = key) then Some v else lookup_prop key r
  end.

(** [parsed.key] for a [parsed] that is not [null]: the numbers,
    booleans, strings and arrays that [JSON.parse] returns have none of
    the properties read here. *)
Definition get (parsed : value) (key : str) : option value :=
  match parsed with
  | VObj props => lookup_prop key props
  | _ => None
  end.

(** [a || b], on values that may be [undefined] *)
Definition or_else (a : option value) (b : option value) : option value :=
  match a with
  | Some v => if truthy v then a else b
  | None => b
  end.

(** [a || d] with a default [d] that is a value *)
Definition or_value (a : option value) (d : value) : value :=
  match a with
  | Some v => if truthy v then v else d
  | None => d
  end.

Definition ZERO : number := number_of_Z 0.

(** What a call ends with: a returned value or a thrown [TypeError]. *)
Inductive completion : Type :=
  | Returns (r : option Result.t)
  | Throws.

Section Builtins.
(** The conversions of ECMAScript between strings and numbers,
    [StringToNumber] and [Number::toString], are not modelled: every
    statement below holds whatever they are. *)
Variable StringToNumber : list Z → number.
Variable NumberToString : number → list Z.

(** [arr.join(sep)] on strings *)
Fixpoint join_with (sep : str) (parts : list str) : str :=
  match parts with
  | [] => []
  | [p] => p
  | p :: r => p ++ sep ++ join_with sep r
  end.

(** [String(v)]; [None] when the conversion throws a [TypeError].  An
    object that [JSON.parse] built inherits a callable [toString], which
    answers ["[object Object]"], unless a key of its own named
    ["toString"] hides it: the value under that key is no function, the
    [valueOf] it inherits returns the object itself, and the conversion
    throws.  An array joins the strings of its elements, with the empty
    string for [null], and throws when one of them does. *)
Fixpoint ToString (v : value) : option str :=
  match v with
  | VNull => Some (js "null")
  | VBool b => Some (if b then js "true" else js "false")
  | VNum n => Some (NumberToString n)
  | VStr s => Some s
  | VArr items =>
      join_with (js ",") <$>
        (fix elements (items : list value) : option (list str) :=
           match items with
           | [] => Some []
           | x :: rest =>
               match match x with VNull => Some [] | _ => ToString x end,
                     elements rest with
               | Some p, Some ps => Some (p :: ps)
               | _, _ => None
               end
           end) items
  | VObj props =>
      match lookup_prop (js "toString") props with
      | Some _ => None
      | None => Some (js "[object Object]")
      end
  end.

(** [Number(v)]; [None] when the conversion throws.  An object or an
    array is first turned into a primitive: the [valueOf] it inherits
    returns the object itself, so its string is what is converted. *)
Definition ToNumber (v : value) : option number :=
  match v with
  | VNull => Some ZERO
  | VBool b => Some (if b then number_of_Z 1 else ZERO)
  | VNum n => Some n
  | VStr s => Some (StringToNumber s)
  | VArr _ | VObj _ => StringToNumber <$> ToString v
  end.

(** ** Result formatter: [formatAyahLabel] *)

(** [`${x}`] for a number that may be [undefined] *)
Definition interpolate (x : option number) : str :=
  match x with
  | Some n => NumberToString n
  | None => js "undefined"
  end.

(** [`آيات ${a}–${b}`] and [`آية ${a}`] *)
Definition range_label (a b : option number) : str :=
  js "آيات " ++ interpolate a ++ js "–" ++ interpolate b.

Definition single_label (a : option number) : str :=
  js "آية " ++ interpolate a.

(** [formatAyahLabel(result)] *)
Definition formatAyahLabel (result : Result.t) : str :=
  match Result.ayahs result with
  | Some ((_ :: _) as ayahs) =>
      let sorted := Array_sort number_sub ayahs in
      if truthy_field (sorted !! 0%nat)
         && truthy_field (sorted !! (length sorted - 1)%nat)
         && (1 <? length sorted)%nat
      then range_label (sorted !! 0%nat) (sorted !! (length sorted - 1)%nat)
      else single_label (sorted !! 0%nat)
  | _ =>
      if truthy_field (Result.ayahStart result)
         && truthy_field (Result.ayahEnd result)
      then range_label (Result.ayahStart result) (Result.ayahEnd result)
      else single_label
             (if truthy_field (Result.ayah result) then Result.ayah result
              else Some ZERO)
  end.

(** ** Remote identifier: the coercion of the parsed reply *)

(** [Number(a || b || 0) || 0]; [None] when [Number] throws *)
Definition coerce_number (a b : option value) : option number :=
  n ← ToNumber (or_value (or_else a b) (VNum ZERO));
  Some (if truthy_number n then n else ZERO).

(** [Array.isArray(v) ? v.map((n) => Number(n)).filter(Boolean) : null];
    [None] when [Number] throws on an entry, [Some None] for [null] *)
Definition coerce_list (v : option value) : option (option (list number)) :=
  match v with
  | Some (VArr items) =>
      numbers ← mapM ToNumber items;
      Some (Some (filter (λ n, truthy_number n) numbers))
  | _ => Some None
  end.

(** [identifySurahFromTranscript(transcript)], from [JSON.parse] on:
    [parsed] is [None] when [JSON.parse] threw and the value it
    returned otherwise.  Reading a property of [null] throws, and so
    does a [Number()] that throws: neither is caught. *)
Definition identifySurahFromTranscript (transcript : str)
    (parsed : option value) : completion :=
  match parsed with
  | None => Returns None
  | Some VNull => Throws
  | Some parsed =>
      let surah :=
        or_value (or_else (get parsed (js "surah")) (get parsed (js "chapter")))
          (VStr (js "—")) in
      let arabic := or_value (get parsed (js "arabic")) (VStr transcript) in
      let translation :=
        or_value (get parsed (js "translation")) (VStr (js "—")) in
      match coerce_number (get parsed (js "ayah")) (get parsed (js "verse")),
            coerce_number (get parsed (js "ayahStart"))
              (get parsed (js "verseStart")),
            coerce_number (get parsed (js "ayahEnd"))
              (get parsed (js "verseEnd")),
            coerce_list (get parsed (js "ayahs")) with
      | Some ayah, Some ayahStart, Some ayahEnd, Some ayahs =>
          match ayahs with
          | Some (_ :: _) =>
              Returns (Some
                {| Result.surah := surah; Result.arabic := arabic;
                   Result.translation := translation;
                   Result.ayah := None; Result.ayahStart := None;
                   Result.ayahEnd := None; Result.ayahs := ayahs |})
          | _ =>
              if truthy_number ayahStart && truthy_number ayahEnd
              then Returns (Some
                {| Result.surah := surah; Result.arabic := arabic;
                   Result.translation := translation;
                   Result.ayah := None; Result.ayahStart := Some ayahStart;
                   Result.ayahEnd := Some ayahEnd; Result.ayahs := None |})
              else Returns (Some
                {| Result.surah := surah; Result.arabic := arabic;
                   Result.translation := translation;
                   Result.ayah := Some ayah; Result.ayahStart := None;
                   Result.ayahEnd := None; Result.ayahs := None |})
          end
      | _, _, _, _ => Throws
      end
  end.
End Builtins.



(** [Number::toString] on the integers below 10^21, in decimal digits;
    it serves to evaluate the examples, which render integers only. *)
Definition decimal_NumberToString (n : number) : str :=
  match n with
  | NaN => js "NaN"
  | Infinity negative => if negative then js "-Infinity" else js "Infinity"
  | Finite q =>
      let z := Qnum q / Zpos (Qden q) in
      (if z <? 0 then js "-" else []) ++ String_of_nat (Z.abs_nat z)
  end.

(** [StringToNumber] on the strings that hold decimal digits only; it
    serves to evaluate the examples. *)
Definition decimal_StringToNumber (s : str) : number :=
  if forallb (in_range 0x30 0x39) s
  then number_of_Z (foldl (λ acc d, 10 * acc + (d - 0x30)) 0 s)
  else NaN.


(** ** Surah-name resolver: [mapSurahNameToNumber] *)

(** A [Map] with string keys: its entries in insertion order. *)
Fixpoint Map_set (m : list (list Z * Z)) (key : str) (v : Z)
    : list (list Z * Z) :=
  match m with
  | [] => [(key, v)]
  | (k, w) :: r =>
      if decide (k = key) then (k, v) :: r else (k, w) :: Map_set r key v
  end.

(** [new Map(entries)]: an entry whose key is already there replaces
    the value and keeps the place. *)
Definition new_Map (entries : list (list Z * Z)) : list (list Z * Z) :=
  foldl (λ m entry, Map_set m entry.1 entry.2) [] entries.

(** [m.get(key)], [None] for [undefined] *)
Fixpoint Map_get (m : list (list Z * Z)) (key : str) : option Z :=
  match m with
  | [] => None
  | (k, v) :: r => if decide (k = key) then Some v else Map_get r key
  end.

(** [s.startsWith(key)] *)
Fixpoint starts_with (s key : str) : bool :=
  match key, s with
  | [], _ => true
  | _ :: _, [] => false
  | k :: key', c :: s' => (c =? k) && starts_with s' key'
  end.

(** [s.includes(key)] *)
Fixpoint includes (s key : str) : bool :=
  starts_with s key
  || match s with
     | [] => false
     | _ :: r => includes r key
     end.

(** The 114 names of [SURAH_ARABIC_LIST], in order. *)
Definition SURAH_ARABIC_LIST : list (list Z) :=
  [
   js "الفاتحة"; js "البقرة"; js "آل عمران"; js "النساء"; js "المائدة";
   js "الأنعام"; js "الأعراف"; js "الأنفال"; js "التوبة"; js "يونس";
   js "هود"; js "يوسف"; js "الرعد"; js "إبراهيم"; js "الحجر";
   js "النحل"; js "الإسراء"; js "الكهف"; js "مريم"; js "طه";
   js "الأنبياء"; js "الحج"; js "المؤمنون"; js "النور"; js "الفرقان";
   js "الشعراء"; js "النمل"; js "القصص"; js "العنكبوت"; js "الروم";
   js "لقمان"; js "السجدة"; js "الأحزاب"; js "سبإ"; js "فاطر";
   js "يس"; js "الصافات"; js "ص"; js "الزمر"; js "غافر";
   js "فصلت"; js "الشورى"; js "الزخرف"; js "الدخان"; js "الجاثية";
   js "الأحقاف"; js "محمد"; js "الفتح"; js "الحجرات"; js "ق";
   js "الذاريات"; js "الطور"; js "النجم"; js "القمر"; js "الرحمن";
   js "الواقعة"; js "الحديد"; js "المجادلة"; js "الحشر"; js "الممتحنة";
   js "الصف"; js "الجمعة"; js "المنافقون"; js "التغابن"; js "الطلاق";
   js "التحريم"; js "الملك"; js "القلم"; js "الحاقة"; js "المعارج";
   js "نوح"; js "الجن"; js "المزمل"; js "المدثر"; js "القيامة";
   js "الإنسان"; js "المرسلات"; js "النبإ"; js "النازعات"; js "عبس";
   js "التكوير"; js "الإنفطار"; js "المطففين"; js "الإنشقاق"; js "البروج";
   js "الطارق"; js "الأعلى"; js "الغاشية"; js "الفجر"; js "البلد";
   js "الشمس"; js "الليل"; js "الضحى"; js "الشرح"; js "التين";
   js "العلق"; js "القدر"; js "البينة"; js "الزلزلة"; js "العاديات";
   js "القارعة"; js "التكاثر"; js "العصر"; js "الهمزة"; js "الفيل";
   js "قريش"; js "الماعون"; js "الكوثر"; js "الكافرون"; js "النصر";
   js "المسد"; js "الإخلاص"; js "الفلق"; js "الناس"
  ].

(** What [\s+] matches at the start of [s]: [Some] of the rest behind
    the white space, [None] when [s] does not start with white space. *)
Definition skip_spaces (s : str) : option (list Z) :=
  match s with
  | c :: _ => if is_space c then Some (trimStart s) else None
  | [] => None
  end.

(** [s.replace(/^سوره?\s+/i, '')].  The optional letter is tried first,
    then left out.  The letters of the pattern have no other case, so the
    flag [i] changes nothing. *)
Definition strip_surah_prefix (s : str) : str :=
  if starts_with s (js "سور") then
    let r := drop 3 s in
    let with_ha :=
      match r with
      | c :: r' => if c =? HA then skip_spaces r' else None
      | [] => None
      end in
    match with_ha with
    | Some rest => rest
    | None =>
        match skip_spaces r with
        | Some rest => rest
        | None => s
        end
    end
  else s.

(** [normalizeSurahNameForMatch(name)] *)
Definition normalizeSurahNameForMatch (name : str) : str :=
  strip_surah_prefix (normalizeArabic name).

(** [ARABIC_NORM_TO_NUM] *)
Definition ARABIC_NORM_TO_NUM : list (list Z * Z) :=
  new_Map (imap (λ i n, (normalizeSurahNameForMatch n, Z.of_nat i + 1))
             SURAH_ARABIC_LIST).

(** The entries of [englishToNum], in order. *)
Definition englishToNum_entries : list (list Z * Z) :=
  [
   (js "Al-Fatihah", 1); (js "Al-Baqarah", 2); (js "Ali " ++ [0x22] ++ js "Imran", 3); (js "An-Nisa", 4);
   (js "Al-Ma'idah", 5); (js "Al-An'am", 6); (js "Al-A'raf", 7); (js "Al-Anfal", 8);
   (js "At-Tawbah", 9); (js "Yunus", 10); (js "Hud", 11); (js "Yusuf", 12);
   (js "Ar-Ra'd", 13); (js "Ibrahim", 14); (js "Al-Hijr", 15); (js "An-Nahl", 16);
   (js "Al-Isra", 17); (js "Al-Kahf", 18); (js "Maryam", 19); (js "Ta-Ha", 20);
   (js "Al-Anbiya", 21); (js "Al-Hajj", 22); (js "Al-Mu'minun", 23); (js "An-Nur", 24);
   (js "Al-Furqan", 25); (js "Ash-Shu'ara", 26); (js "An-Naml", 27); (js "Al-Qasas", 28);
   (js "Al-'Ankabut", 29); (js "Ar-Rum", 30); (js "Luqman", 31); (js "As-Sajdah", 32);
   (js "Al-Ahzab", 33); (js "Saba", 34); (js "Fatir", 35); (js "Ya-Sin", 36);
   (js "As-Saffat", 37); (js "Sad", 38); (js "Az-Zumar", 39); (js "Ghafir", 40);
   (js "Fussilat", 41); (js "Ash-Shuraa", 42); (js "Az-Zukhruf", 43); (js "Ad-Dukhan", 44);
   (js "Al-Jathiyah", 45); (js "Al-Ahqaf", 46); (js "Muhammad", 47); (js "Al-Fath", 48);
   (js "Al-Hujurat", 49); (js "Qaf", 50); (js "Adh-Dhariyat", 51); (js "At-Tur", 52);
   (js "An-Najm", 53); (js "Al-Qamar", 54); (js "Ar-Rahman", 55); (js "Al-Waqi'ah", 56);
   (js "Al-Hadid", 57); (js "Al-Mujadila", 58); (js "Al-Hashr", 59); (js "Al-Mumtahanah", 60);
   (js "As-Saff", 61); (js "Al-Jumu'ah", 62); (js "Al-Munafiqun", 63); (js "At-Taghabun", 64);
   (js "At-Talaq", 65); (js "At-Tahrim", 66); (js "Al-Mulk", 67); (js "Al-Qalam", 68);
   (js "Al-Haqqah", 69); (js "Al-Ma'arij", 70); (js "Nuh", 71); (js "Al-Jinn", 72);
   (js "Al-Muzzammil", 73); (js "Al-Muddaththir", 74); (js "Al-Qiyamah", 75); (js "Al-Insan", 76);
   (js "Al-Mursalat", 77); (js "An-Naba", 78); (js "An-Nazi'at", 79); (js "Abasa", 80);
   (js "At-Takwir", 81); (js "Al-Infitar", 82); (js "Al-Mutaffifin", 83); (js "Al-Inshiqaq", 84);
   (js "Al-Buruj", 85); (js "At-Tariq", 86); (js "Al-A'la", 87); (js "Al-Ghashiyah", 88);
   (js "Al-Fajr", 89); (js "Al-Balad", 90); (js "Ash-Shams", 91); (js "Al-Layl", 92);
   (js "Ad-Duha", 93); (js "Ash-Sharh", 94); (js "At-Tin", 95); (js "Al-'Alaq", 96);
   (js "Al-Qadr", 97); (js "Al-Bayyinah", 98); (js "Az-Zalzalah", 99); (js "Al-'Adiyat", 100);
   (js "Al-Qari'ah", 101); (js "At-Takathur", 102); (js "Al-'Asr", 103); (js "Al-Humazah", 104);
   (js "Al-Fil", 105); (js "Quraysh", 106); (js "Al-Ma'un", 107); (js "Al-Kawthar", 108);
   (js "Al-Kafirun", 109); (js "An-Nasr", 110); (js "Al-Masad", 111); (js "Al-Ikhlas", 112);
   (js "Al-Falaq", 113); (js "An-Nas", 114)
  ].

Definition englishToNum : list (list Z * Z) := new_Map englishToNum_entries.

(** The first entry of [m], in iteration order, whose key passes
    [test]: the [for ... of m.entries()] loops that stop at the first
    hit. *)
Fixpoint first_entry (test : list Z → bool) (m : list (list Z * Z))
    : option Z :=
  match m with
  | [] => None
  | (k, v) :: r => if test k then Some v else first_entry test r
  end.

(** ToBoolean on a number of the tables that may be [undefined] *)
Definition truthy_num (num : option Z) : bool :=
  match num with
  | Some n => negb (n =? 0)
  | None => false
  end.

(** The first half of [mapSurahNameToNumber]: [num] after the exact
    lookup of [norm] and, on a miss, the scan for a key that [norm]
    includes. *)
Definition arabic_number (norm : str) : option Z :=
  let num := Map_get ARABIC_NORM_TO_NUM norm in
  if truthy_num num then num
  else
    match first_entry (λ key, includes norm key) ARABIC_NORM_TO_NUM with
    | Some value => Some value
    | None => num
    end.

Section Resolver.
(** [String.prototype.toLowerCase] is not modelled: the resolver is
    stated for any lowering function. *)
Variable toLowerCase : list Z → list Z.

(** [mapSurahNameToNumber(surahName)] *)
Definition mapSurahNameToNumber (surahName : str) : Z :=
  if negb (truthy_str surahName) then 0
  else
    let norm := normalizeSurahNameForMatch (trim surahName) in
    let num := arabic_number norm in
    if truthy_num num then default 0 num
    else
      let en := trim surahName in
      if truthy_num (Map_get englishToNum en)
      then default 0 (Map_get englishToNum en)
      else
        match first_entry
                (λ k, includes (toLowerCase en) (toLowerCase k))
                englishToNum with
        | Some v => v
        | None => 0
        end.

(** The resolver as the specification words it: the third strategy is
    an exact match that ignores case. *)
Definition resolve_as_specified (name : str) : Z :=
  let norm := normalizeSurahNameForMatch (trim name) in
  let en := trim name in
  match Map_get ARABIC_NORM_TO_NUM norm with
  | Some n => n
  | None =>
      match first_entry (λ key, includes norm key) ARABIC_NORM_TO_NUM with
      | Some n => n
      | None =>
          match first_entry
                  (λ k, bool_decide (toLowerCase k = toLowerCase en))
                  englishToNum with
          | Some n => n
          | None =>
              match first_entry
                      (λ k, includes (toLowerCase en) (toLowerCase k))
                      englishToNum with
              | Some n => n
              | None => 0
              end
          end
      end
  end.
End Resolver.

(** [toLowerCase] on strings of ASCII code units; it serves to evaluate
    the examples. *)
Definition ascii_toLowerCase (s : str) : str :=
  (λ c, if in_range 0x41 0x5A c then c + 0x20 else c) <$> s.

(** The keys of the two tables, in order. *)
Definition arabic_keys : list (list Z) :=
  normalizeSurahNameForMatch <$> SURAH_ARABIC_LIST.

Definition english_keys : list (list Z) := englishToNum_entries.*1.

(** [key] occurs in [s] as a run of consecutive code units. *)
Definition substring (key s : str) : Prop := ∃ a b, s = a ++ key ++ b.

(** [i] is the first place of [keys] whose key satisfies [P]. *)
Definition first_match (P : list Z → Prop) (keys : list (list Z)) (i : nat)
    : Prop :=
  (∃ k, keys !! i = Some k ∧ P k)
  ∧ ∀ (j : nat) k, (j < i)%nat → keys !! j = Some k → ¬ P k.


(** ** A small corpus for the examples *)

(** Two chapters; the verse of the second is the first verse of the
    first, so the two score alike against any transcript. *)
Definition example_corpus : Corpus.t :=
  {| Corpus.surahs :=
       [ {| Surah.englishName := js "Al-Faatiha";
            Surah.nameArabic := js "سُورَةُ ٱلْفَاتِحَةِ";
            Surah.ayahs :=
              [ Ayah.mk (js "بِسْمِ ٱللَّهِ ٱلرَّحْمَٰنِ ٱلرَّحِيمِ");
                Ayah.mk (js "ٱلْحَمْدُ لِلَّهِ رَبِّ ٱلْعَٰلَمِينَ") ] |};
         {| Surah.englishName := js "An-Naml";
            Surah.nameArabic := js "سُورَةُ النَّمۡلِ";
            Surah.ayahs :=
              [ Ayah.mk (js "بِسْمِ ٱللَّهِ ٱلرَّحْمَٰنِ ٱلرَّحِيمِ") ] |} ] |}.

(** What the speech recognizer gives for the first verse. *)
Definition example_transcript : list Z := js "بسم ٱلله ٱلرحمن ٱلرحيم".


(** ** Extraction of the JSON text of a reply *)

Definition LBRACE : Z := 0x7B.
Definition RBRACE : Z := 0x7D.

(** The suffix of [s] that starts at the first [c], [None] when [s]
    holds no [c]. *)
Fixpoint from_first (c : Z) (s : str) : option (list Z) :=
  match s with
  | [] => None
  | x :: r => if x =? c then Some s else from_first c r
  end.

(** The prefix of [s] that ends with the last [c], [None] when [s] holds
    no [c]. *)
Fixpoint up_to_last (c : Z) (s : str) : option (list Z) :=
  match s with
  | [] => None
  | x :: r =>
      match up_to_last c r with
      | Some p => Some (x :: p)
      | None => if x =? c then Some [x] else None
      end
  end.

(** [content.match(/\{[\s\S]*\}/)]: the match starts at the first brace
    that some closing brace follows and, the star being greedy, ends at
    the last closing brace; [None] for [null]. *)
Definition match_object (content : str) : option (list Z) :=
  match from_first LBRACE content with
  | Some opened => up_to_last RBRACE opened
  | None => None
  end.

(** [let jsonText = content; if (match) jsonText = match[0];] *)
Definition jsonText (content : str) : str :=
  match match_object content with
  | Some m => m
  | None => content
  end.

(** ** Recitation clips: [buildRecitationUrl] and the verse list of
    [playRecitationForResult] *)

(** [s.padStart(targetLength, fill)] with a filler of one code unit *)
Definition padStart (targetLength : nat) (fill : Z) (s : str) : str :=
  replicate (targetLength - length s) fill ++ s.

Definition RECITATION_BASE : list Z :=
  js "https://cdn.islamic.network/quran/audio/64/ar.alafasy/".

(** [a + b], for two doubles whose exact sum is a double, as it is for
    two whole numbers whose sum lies between -2^53 and 2^53: the double
    is then the exact sum.  The statements that read a sum keep to such
    numbers. *)
Definition number_add (a b : number) : number :=
  match a, b with
  | NaN, _ | _, NaN => NaN
  | Infinity na, Infinity nb => if Bool.eqb na nb then Infinity na else NaN
  | Infinity na, Finite _ => Infinity na
  | Finite _, Infinity nb => Infinity nb
  | Finite qa, Finite qb => Finite (qa + qb)
  end.

(** [a <= b] *)
Definition number_leb (a b : number) : bool :=
  match a, b with
  | NaN, _ | _, NaN => false
  | Infinity na, Infinity nb => na || negb nb
  | Infinity na, Finite _ => na
  | Finite _, Infinity nb => negb nb
  | Finite qa, Finite qb => Qle_bool qa qb
  end.

(** [for (let i = start; i <= ayahEnd; i += 1) ayahList.push(i)], run
    for at most [fuel] tests of the condition; [None] when the loop has
    not ended by then. *)
Fixpoint range_loop (fuel : nat) (i ayahEnd : number)
    (ayahList : list number) : option (list number) :=
  match fuel with
  | O => None
  | S fuel =>
      if number_leb i ayahEnd
      then range_loop fuel (number_add i (number_of_Z 1)) ayahEnd
             (ayahList ++ [i])
      else Some ayahList
  end.

(** [if (result.ayah) ayahList = [Number(result.ayah)]] *)
Definition single_list (ayah : option number) : list number :=
  match ayah with
  | Some n => if truthy_number n then [n] else []
  | None => []
  end.

(** The verse list that [playRecitationForResult] derives from the
    result; [None] when the range loop has not ended within [fuel]. *)
Definition ayahList (fuel : nat) (result : Result.t)
    : option (list number) :=
  match Result.ayahs result with
  | Some ((_ :: _) as ayahs) => Some (Array_sort number_sub ayahs)
  | _ =>
      match Result.ayahStart result, Result.ayahEnd result with
      | Some ayahStart, Some ayahEnd =>
          if truthy_number ayahStart && truthy_number ayahEnd
          then range_loop fuel ayahStart ayahEnd []
          else Some (single_list (Result.ayah result))
      | _, _ => Some (single_list (Result.ayah result))
      end
  end.

(** What the loop over the clips meets at one clip: whether the clip
    plays to its end or fails. *)
Inductive clip_outcome : Type :=
  | Ended
  | Failed.

(** What a call of [playRecitationForResult] comes to: the clips it has
    started, in order; a [TypeError]; or a range loop that has not ended
    within the fuel. *)
Inductive playback : Type :=
  | Played (clips : list (list Z))
  | PlaybackThrows
  | PlaybackUnfinished.

(** What the recognition ends on: the result card or an error line. *)
Inductive screen : Type :=
  | Results (result : Result.t)
  | Error (message : list Z).

Definition NO_AUDIO : list Z := js "لم يتم التقاط صوت.".
Definition NOT_IDENTIFIED : list Z := js "تعذر التعرف على الآية.".
Definition FAILED : list Z := js "حدث خطأ أثناء التعرف.".

(** [transcriptFinal || liveBefore || ''] of [toProcessing], from the
    final transcript of the recognizer and the text of the live line *)
Definition transcriptFallback (latestTranscript liveText : str) : str :=
  let liveBefore := trim liveText in
  let transcriptFinal := trim latestTranscript in
  if truthy_str transcriptFinal then transcriptFinal
  else if truthy_str liveBefore then liveBefore
  else [].

Section Recitation.
Variable toLowerCase : list Z → list Z.
Variable NumberToString : number → list Z.

(** [buildRecitationUrl(surahNumber, ayahNumber)] *)
Definition buildRecitationUrl (surahNumber ayahNumber : number) : str :=
  let s := padStart 3 0x30 (NumberToString surahNumber) in
  let a := padStart 3 0x30 (NumberToString ayahNumber) in
  RECITATION_BASE ++ s ++ a ++ js ".mp3".

(** The clips that the loop of [playRecitationForResult] starts, in
    order.  [events k] tells what the loop meets at its turn [k]:
    whether [stopSequentialPlayback] is set when the turn tests it, and
    how the clip of the turn ends.  The loop leaves at the first turn
    that finds the flag set and after the first clip that fails. *)
Fixpoint play_clips (surahNumber : Z) (ayahs : list number)
    (events : nat → bool * clip_outcome) (k : nat) : list (list Z) :=
  match ayahs with
  | [] => []
  | ayahNumber :: rest =>
      if (events k).1 then []
      else
        buildRecitationUrl (number_of_Z surahNumber) ayahNumber
        :: match (events k).2 with
           | Ended => play_clips surahNumber rest events (S k)
           | Failed => []
           end
  end.

(** [mapSurahNameToNumber(surah)] on the [surah] of a result, which a
    remote reply may have set to any value: a falsy one gives 0, a
    string is resolved, and any other value has no [trim] to call
    ([None]: the call throws). *)
Definition resolve_surah (surah : value) : option Z :=
  if negb (truthy surah) then Some 0
  else
    match surah with
    | VStr surahName => Some (mapSurahNameToNumber toLowerCase surahName)
    | _ => None
    end.

(** [playRecitationForResult()], with [lastResult] for the result on
    the card *)
Definition playRecitationForResult (fuel : nat)
    (lastResult : option Result.t) (events : nat → bool * clip_outcome)
    : playback :=
  match lastResult with
  | None => Played []
  | Some result =>
      match resolve_surah (Result.surah result) with
      | None => PlaybackThrows
      | Some surahNumber =>
          if surahNumber =? 0 then Played []
          else
            match ayahList fuel result with
            | None => PlaybackUnfinished
            | Some ayahs => Played (play_clips surahNumber ayahs events 0)
            end
      end
  end.

(** The test of [toResults] that enables the play button. *)
Definition play_enabled (surahNumber : Z) (result : Result.t) : bool :=
  negb (surahNumber =? 0)
  && (truthy_field (Result.ayah result)
      || truthy_field (Result.ayahStart result)
      || match Result.ayahs result with
         | Some (_ :: _) => true
         | _ => false
         end).

(** [node.textContent = v]: the text that the node gets, [None] when
    the conversion of [v] to a string throws.  [null] gives the empty
    text. *)
Definition textContent (v : value) : option str :=
  match v with
  | VNull => Some []
  | _ => ToString NumberToString v
  end.

(** [toResults(result)]: the card shows the result, unless one of the
    conversions on the way throws ([None]): the template literal of the
    badge converts [surah], the two [textContent] assignments convert
    [arabic] and [translation], and [mapSurahNameToNumber] calls [trim]
    on [surah]. *)
Definition toResults (result : Result.t) : option screen :=
  _ ← ToString NumberToString (Result.surah result);
  _ ← textContent (Result.arabic result);
  _ ← textContent (Result.translation result);
  _ ← resolve_surah (Result.surah result);
  Some (Results result).

(** What the promise chain of [toProcessing] ends on.  [remote] stands
    for [identifySurahFromTranscript] on the transcript: the value it
    resolves to, or [Throws] when it rejects.  When [toResults] throws,
    the [catch] of the chain shows the error line. *)
Definition toProcessing (corpus : option Corpus.t)
    (latestTranscript liveText : str) (remote : list Z → completion)
    : screen :=
  let transcript := transcriptFallback latestTranscript liveText in
  let normalized := normalizeArabic transcript in
  if negb (truthy_str normalized) || (length normalized <? 6)%nat
  then Error NO_AUDIO
  else
    let found :=
      match identifyByCorpus corpus transcript with
      | Some m => Returns (Some m)
      | None => remote transcript
      end in
    match found with
    | Returns (Some result) =>
        match toResults result with
        | Some shown => shown
        | None => Error FAILED
        end
    | Returns None => Error NOT_IDENTIFIED
    | Throws => Error FAILED
    end.
End Recitation.

(** The three digits that [buildRecitationUrl] writes for a number
    below 1000. *)
Definition three_digits (n : nat) : str :=
  padStart 3 0x30 (decimal_NumberToString (number_of_nat n)).

(** The result has no verse list: [ayahs] is missing or empty. *)
Definition no_verse_list (result : Result.t) : Prop :=
  Result.ayahs result = None ∨ Result.ayahs result = Some [].

(* ===================================================================== *)
(** * Properties *)
(* ===================================================================== *)

(** ** Classes of code units *)

Lemma Is_true_leb (a b : Z) : Is_true (a <=? b) ↔ a ≤ b.
Proof. rewrite Is_true_true. apply Z.leb_le. Qed.

Lemma Is_true_eqb (a b : Z) : Is_true (a =? b) ↔ a = b.
Proof. rewrite Is_true_true. apply Z.eqb_eq. Qed.

(** Turns the class tests of the context and of the goal into linear
    arithmetic. *)
Ltac unfold_classes :=
  unfold is_foreign, is_arabic, is_ta_marbuta, is_alif_maqsura,
    is_alif_variant, is_mark, is_harakat, is_space, in_range,
    SPACE, ALIF, YA, HA in *.

Ltac class_arith :=
  unfold_classes;
  repeat match goal with
         | H : _ = true |- _ => apply Is_true_true in H
         | H : _ = false |- _ => apply Is_true_false in H
         end;
  repeat (progress rewrite ?negb_True, ?orb_True, ?andb_True,
            ?Is_true_leb, ?Is_true_eqb in * );
  unfold Is_true in *;
  lia.

Lemma arabic_not_space (c : Z) : is_arabic c → ¬ is_space c.
Proof. class_arith. Qed.

Lemma SPACE_is_space : is_space SPACE.
Proof. done. Qed.

Lemma settled_arabic_or_space (c : Z) :
  settled c → is_arabic c ∨ c = SPACE.
Proof. unfold settled. class_arith. Qed.

Lemma settled_space (c : Z) : settled c → is_space c → c = SPACE.
Proof. unfold settled. class_arith. Qed.

(** ** The replacement steps *)

Lemma remove_all_id (cls : Z → bool) (s : str) :
  Forall (λ c, ¬ cls c) s → remove_all cls s = s.
Proof.
  unfold remove_all. induction 1 as [|c r Hc _ IH]; [done|].
  rewrite filter_cons_True by done. by rewrite IH.
Qed.

Lemma replace_all_id (cls : Z → bool) (x : Z) (s : str) :
  Forall (λ c, ¬ cls c) s → replace_all cls x s = s.
Proof.
  unfold replace_all. induction 1 as [|c r Hc _ IH]; [done|].
  cbn. rewrite IH. by destruct (cls c).
Qed.

Lemma fold_letters_unitwise (s : str) :
  fold_letters s
  = fold_unit <$> filter (λ c, ¬ is_mark c) (filter (λ c, ¬ is_harakat c) s).
Proof.
  unfold fold_letters, replace_all, remove_all.
  rewrite <- !list_fmap_compose. done.
Qed.

Lemma fold_unit_settled (c : Z) :
  ¬ is_harakat c → ¬ is_mark c →
  is_space (fold_unit c) ∨ settled (fold_unit c).
Proof.
  intros Hh Hm. unfold fold_unit, settled.
  repeat case_match; class_arith.
Qed.

Lemma fold_unit_id (c : Z) : settled c → fold_unit c = c.
Proof.
  intros Hc. unfold fold_unit, settled in *.
  repeat case_match; class_arith.
Qed.

Lemma settled_kept (c : Z) : settled c → ¬ is_harakat c ∧ ¬ is_mark c.
Proof. unfold settled. class_arith. Qed.

Lemma fold_letters_id (s : str) :
  Forall (λ c, settled c) s → fold_letters s = s.
Proof.
  intros Hs. rewrite fold_letters_unitwise.
  fold (remove_all is_harakat s). rewrite remove_all_id.
  2:{ eapply Forall_impl; [exact Hs|]. intros c Hc. by apply settled_kept. }
  fold (remove_all is_mark s). rewrite remove_all_id.
  2:{ eapply Forall_impl; [exact Hs|]. intros c Hc. by apply settled_kept. }
  induction Hs as [|c r Hc _ IH]; [done|].
  cbn. by rewrite IH, fold_unit_id.
Qed.

Lemma fold_letters_elem (s : str) (c : Z) :
  c ∈ fold_letters s → is_space c ∨ settled c.
Proof.
  rewrite fold_letters_unitwise.
  intros (c0 & -> & Hc0)%list_elem_of_fmap.
  apply list_elem_of_filter in Hc0 as [Hm Hc0].
  apply list_elem_of_filter in Hc0 as [Hh _].
  by apply fold_unit_settled.
Qed.

Lemma fold_letters_foreign (s : str) :
  Forall (λ c, ¬ is_arabic c) s → Forall (λ c, is_space c) (fold_letters s).
Proof.
  intros Hs. rewrite fold_letters_unitwise.
  apply Forall_forall. intros c (c0 & -> & Hc0)%list_elem_of_fmap.
  apply list_elem_of_filter in Hc0 as [_ Hc0].
  apply list_elem_of_filter in Hc0 as [_ Hc0].
  rewrite Forall_forall in Hs. specialize (Hs _ Hc0).
  unfold fold_unit. repeat case_match; class_arith.
Qed.

(** ** White space runs *)

Lemma replace_space_runs_elem (in_run : bool) (s : str) (c : Z) :
  c ∈ replace_space_runs in_run s → c = SPACE ∨ (c ∈ s ∧ ¬ is_space c).
Proof.
  revert in_run. induction s as [|x r IH]; intros in_run; cbn.
  - by intros ?%elem_of_nil.
  - destruct (is_space x) eqn:Hx.
    + destruct in_run.
      * intros [?|(? & ?)]%IH; [by left|right]. split; [by right|done].
      * intros [->|[?|(? & ?)]%IH]%elem_of_cons; [by left|by left|right].
        split; [by right|done].
    + intros [->|[?|(? & ?)]%IH]%elem_of_cons.
      * right. split; [by left|]. by apply Is_true_false.
      * by left.
      * right. split; [by right|done].
Qed.

Lemma replace_space_runs_single_spaced (in_run : bool) (s : str) :
  single_spaced in_run (replace_space_runs in_run s).
Proof.
  revert in_run. induction s as [|x r IH]; intros in_run; cbn; [done|].
  destruct (is_space x) eqn:Hx.
  - destruct in_run; [apply IH|]. cbn. split_and!; [done..|apply IH].
  - cbn. rewrite Hx. apply IH.
Qed.

Lemma replace_space_runs_spaces (in_run : bool) (s : str) :
  Forall (λ c, is_space c) s →
  Forall (λ c, is_space c) (replace_space_runs in_run s).
Proof.
  intros Hs. apply Forall_forall.
  intros c [->|[Hc Hn]]%replace_space_runs_elem; [done|].
  rewrite Forall_forall in Hs. by destruct Hn; apply Hs.
Qed.

Lemma single_spaced_weaken (in_run : bool) (s : str) :
  single_spaced in_run s → single_spaced false s.
Proof.
  destruct s as [|c r]; [done|]. cbn.
  destruct (is_space c); [|done]. by intros (? & -> & ?).
Qed.

Lemma replace_space_runs_id (in_run : bool) (s : str) :
  single_spaced in_run s → replace_space_runs in_run s = s.
Proof.
  revert in_run. induction s as [|c r IH]; intros in_run; cbn; [done|].
  destruct (is_space c).
  - intros (-> & -> & Hr). by rewrite IH.
  - intros Hr. by rewrite IH.
Qed.

Lemma single_spaced_no_double (in_run : bool) (s : str) :
  single_spaced in_run s → no_double_space s.
Proof.
  revert in_run. induction s as [|c r IH]; intros in_run Hs i a b Ha Hb.
  - done.
  - cbn in Hs. destruct i as [|i]; cbn in Ha, Hb.
    + injection Ha as ->. intros [Hc Hb'].
      destruct (is_space a); [|done].
      destruct Hs as (_ & _ & Hr).
      destruct r as [|b' r]; [done|]. injection Hb as ->.
      cbn in Hr. destruct (is_space b); [|done]. by destruct Hr as (_ & ? & _).
    + destruct (is_space c).
      * destruct Hs as (_ & _ & Hr). by eapply IH.
      * by eapply IH.
Qed.

(** ** Trimming *)

Lemma trimStart_elem (s : str) (c : Z) : c ∈ trimStart s → c ∈ s.
Proof.
  induction s as [|x r IH]; cbn; [done|].
  destruct (is_space x); [|done]. intros ?%IH. by right.
Qed.

Lemma trimStart_head (s : str) (c : Z) :
  head (trimStart s) = Some c → ¬ is_space c.
Proof.
  induction s as [|x r IH]; cbn; [done|].
  destruct (is_space x) eqn:Hx; [done|].
  cbn. intros [= <-]. by apply Is_true_false.
Qed.

Lemma trimStart_spaces (s : str) :
  Forall (λ c, is_space c) s → trimStart s = [].
Proof.
  induction 1 as [|x r Hx _ IH]; cbn; [done|].
  by destruct (is_space x).
Qed.

Lemma trimStart_single_spaced (in_run : bool) (s : str) :
  single_spaced in_run s → single_spaced false (trimStart s).
Proof.
  revert in_run. induction s as [|x r IH]; intros in_run; [done|].
  intros Hs. pose proof Hs as Hs'. cbn in Hs |- *.
  destruct (is_space x) eqn:Hx.
  - destruct Hs as (_ & _ & Hr). by eapply IH.
  - by eapply single_spaced_weaken.
Qed.

Lemma trimStart_id (s : str) :
  (∀ c, head s = Some c → ¬ is_space c) → trimStart s = s.
Proof.
  destruct s as [|x r]; cbn; [done|]. intros Hx.
  destruct (is_space x) eqn:E; [|done].
  destruct (Hx x eq_refl). by rewrite E.
Qed.

Lemma trimEnd_cons (c : Z) (r : str) :
  trimEnd (c :: r)
  = if decide (trimEnd r = []) then (if is_space c then [] else [c])
    else c :: trimEnd r.
Proof. cbn. by destruct (trimEnd r). Qed.

Lemma trimEnd_elem (s : str) (c : Z) : c ∈ trimEnd s → c ∈ s.
Proof.
  induction s as [|x r IH]; [done|]. rewrite trimEnd_cons.
  case_decide.
  - destruct (is_space x); [by intros ?%elem_of_nil|].
    intros ->%list_elem_of_singleton. by left.
  - intros [->|?%IH]%elem_of_cons; [by left|by right].
Qed.

Lemma trimEnd_last (s : str) (c : Z) :
  last (trimEnd s) = Some c → ¬ is_space c.
Proof.
  induction s as [|x r IH]; [done|]. rewrite trimEnd_cons.
  case_decide as Hr.
  - destruct (is_space x) eqn:Hx; [done|].
    cbn. intros [= <-]. by apply Is_true_false.
  - destruct (trimEnd r) as [|y r'] eqn:E; [done|]. exact IH.
Qed.

Lemma trimEnd_head (s : str) (c : Z) :
  head (trimEnd s) = Some c → head s = Some c.
Proof.
  destruct s as [|x r]; [done|]. rewrite trimEnd_cons.
  case_decide; [|done]. by destruct (is_space x).
Qed.

Lemma trimEnd_single_spaced (in_run : bool) (s : str) :
  single_spaced in_run s → single_spaced in_run (trimEnd s).
Proof.
  revert in_run. induction s as [|x r IH]; intros in_run; [done|].
  rewrite trimEnd_cons. intros Hs. cbn in Hs.
  case_decide.
  - destruct (is_space x) eqn:Hx; [done|]. cbn. by rewrite Hx.
  - cbn. destruct (is_space x).
    + destruct Hs as (? & ? & ?). split_and!; [done..|by apply IH].
    + by apply IH.
Qed.

Lemma trimEnd_id (s : str) :
  (∀ c, last s = Some c → ¬ is_space c) → trimEnd s = s.
Proof.
  induction s as [|x r IH]; [done|]. intros Hl. rewrite trimEnd_cons.
  destruct r as [|y r].
  - cbn. destruct (is_space x) eqn:E; [|done].
    destruct (Hl x eq_refl). by rewrite E.
  - rewrite IH by (intros c Hc; by apply Hl).
    by rewrite decide_False.
Qed.

(** ** Normal forms of [normalizeArabic] *)

Lemma normalizeArabic_elem (s : str) (c : Z) :
  c ∈ normalizeArabic s → settled c.
Proof.
  unfold normalizeArabic, trim. destruct s as [|x r]; [by intros ?%elem_of_nil|].
  intros Hc%trimEnd_elem%trimStart_elem%replace_space_runs_elem.
  destruct Hc as [->|[Hc Hn]]; [done|].
  by destruct (fold_letters_elem _ _ Hc).
Qed.

Lemma normalizeArabic_normalized (s : str) : normalized (normalizeArabic s).
Proof.
  split_and!.
  - apply Forall_forall. apply normalizeArabic_elem.
  - unfold normalizeArabic, trim. destruct s as [|x r]; [done|].
    apply trimEnd_single_spaced.
    eapply trimStart_single_spaced, replace_space_runs_single_spaced.
  - unfold normalizeArabic, trim. destruct s as [|x r]; [done|].
    intros c Hc%trimEnd_head. by eapply trimStart_head.
  - unfold normalizeArabic, trim. destruct s as [|x r]; [done|].
    apply trimEnd_last.
Qed.

Lemma normalizeArabic_fixes_normalized (s : str) :
  normalized s → normalizeArabic s = s.
Proof.
  intros (Hset & Hsp & Hhd & Hlast).
  unfold normalizeArabic, trim. destruct s as [|x r]; [done|].
  rewrite fold_letters_id by done.
  rewrite replace_space_runs_id by done.
  rewrite trimStart_id by done.
  by rewrite trimEnd_id.
Qed.

Lemma normalizeArabic_foreign (s : str) :
  Forall (λ c, ¬ is_arabic c) s → normalizeArabic s = [].
Proof.
  intros Hs. unfold normalizeArabic, trim. destruct s as [|x r]; [done|].
  rewrite trimStart_spaces; [done|].
  by apply replace_space_runs_spaces, fold_letters_foreign.
Qed.

(** C8. The text normalizer is idempotent: normalizing a normalized
    string gives it back, for every string.  ([normalizeArabic] is a
    function of its argument alone: it reads and writes nothing else.) *)
Theorem normalizeArabic_idempotent (s : str) :
  normalizeArabic (normalizeArabic s) = normalizeArabic s.
Proof.
  apply normalizeArabic_fixes_normalized, normalizeArabic_normalized.
Qed.

(** ** Sets of trigrams *)

Lemma Set_add_elem (set : StringSet) (x y : str) :
  y ∈ Set_add set x ↔ y ∈ set ∨ y = x.
Proof.
  unfold Set_add, Set_has. case_bool_decide.
  - split; [by left|]. by intros [?| ->].
  - rewrite elem_of_app, list_elem_of_singleton. done.
Qed.

Lemma Set_add_NoDup (set : StringSet) (x : str) :
  NoDup set → NoDup (Set_add set x).
Proof.
  intros Hs. unfold Set_add, Set_has. case_bool_decide; [done|].
  apply NoDup_app. split_and!; [done| |apply NoDup_singleton].
  intros y Hy ->%list_elem_of_singleton. done.
Qed.

Lemma foldl_Set_add_NoDup (arr : list str) (set : StringSet) :
  NoDup set → NoDup (foldl Set_add set arr).
Proof.
  revert set. induction arr as [|x arr IH]; intros set Hs; [done|].
  cbn. by apply IH, Set_add_NoDup.
Qed.

Lemma foldl_Set_add_elem (arr : list str) (set : StringSet) (y : str) :
  y ∈ foldl Set_add set arr ↔ y ∈ set ∨ y ∈ arr.
Proof.
  revert set. induction arr as [|x arr IH]; intros set; cbn.
  - rewrite elem_of_nil. tauto.
  - rewrite IH, Set_add_elem, elem_of_cons. tauto.
Qed.

Lemma new_Set_NoDup (arr : list str) : NoDup (new_Set arr).
Proof. apply foldl_Set_add_NoDup, NoDup_nil_2. Qed.

Lemma new_Set_elem (arr : list str) (y : str) : y ∈ new_Set arr ↔ y ∈ arr.
Proof. unfold new_Set. rewrite foldl_Set_add_elem, elem_of_nil. tauto. Qed.

Lemma toTrigrams_NoDup (s : str) : NoDup (toTrigrams s).
Proof. apply new_Set_NoDup. Qed.

Lemma toTrigrams_short (s : str) : (length s < 3)%nat → toTrigrams s = [].
Proof.
  intros Hs. unfold toTrigrams.
  replace (length s - 2)%nat with 0%nat by lia. done.
Qed.

Lemma toTrigrams_long (s : str) : (3 ≤ length s)%nat → toTrigrams s ≠ [].
Proof.
  intros Hs Hnil.
  assert (slice s 0 3 ∈ toTrigrams s) as Hin.
  { apply new_Set_elem, list_elem_of_fmap. exists 0%nat. split; [done|].
    apply elem_of_seq. lia. }
  rewrite Hnil in Hin. by apply elem_of_nil in Hin.
Qed.

(** ** The Jaccard score *)

Lemma count_common_filter (aSet bSet : StringSet) :
  count_common aSet bSet
  = Z.of_nat (length (filter (λ x, x ∈ bSet) aSet)).
Proof.
  unfold count_common.
  enough (∀ n, foldl (λ inter x, if Set_has bSet x then inter + 1 else inter)
                 n aSet
               = n + Z.of_nat (length (filter (λ x, x ∈ bSet) aSet))) as ->
    by done.
  induction aSet as [|x r IH]; intros n; [cbn; lia|].
  rewrite filter_cons. cbn [foldl]. rewrite IH. unfold Set_has.
  case_bool_decide; case_decide; try done; cbn [length]; lia.
Qed.

Lemma members_filter (aSet bSet : StringSet) :
  members (filter (λ x, x ∈ bSet) aSet) = members aSet ∩ members bSet.
Proof.
  unfold members. apply set_eq. intros x.
  rewrite elem_of_intersection, !elem_of_list_to_set, list_elem_of_filter.
  tauto.
Qed.

Lemma count_common_size (aSet bSet : StringSet) :
  NoDup aSet →
  count_common aSet bSet = Z.of_nat (size (members aSet ∩ members bSet)).
Proof.
  intros Ha. rewrite count_common_filter, <- members_filter.
  unfold members. rewrite size_list_to_set; [done|]. by apply NoDup_filter.
Qed.

Lemma Set_size_members (set : StringSet) :
  NoDup set → Set_size set = Z.of_nat (size (members set)).
Proof. intros Hs. unfold Set_size, members. by rewrite size_list_to_set. Qed.

Lemma size_union_intersection (A B : gset (list Z)) :
  (size (A ∪ B) + size (A ∩ B) = size A + size B)%nat.
Proof.
  rewrite size_union_alt.
  assert (size B = size (B ∖ A) + size (A ∩ B))%nat as ->; [|lia].
  rewrite <- size_union by set_solver.
  f_equal. apply set_eq. intros x.
  rewrite elem_of_union, elem_of_difference, elem_of_intersection.
  destruct (decide (x ∈ A)); tauto.
Qed.

(** Quotients of two counters. *)
Lemma Zquot_bounds (i u : Z) :
  0 ≤ i ≤ u → 0 < u → (0 <= inject_Z i / inject_Z u <= 1)%Q.
Proof.
  intros Hi Hu. destruct u as [|p|p]; try lia.
  unfold Qle, Qdiv, Qmult, Qinv, inject_Z. cbn. lia.
Qed.

Lemma Zquot_one (i u : Z) :
  0 < u → (inject_Z i / inject_Z u == 1)%Q ↔ i = u.
Proof.
  intros Hu. destruct u as [|p|p]; try lia.
  unfold Qeq, Qdiv, Qmult, Qinv, inject_Z. cbn. lia.
Qed.

Lemma Zquot_le (i u n d : Z) :
  0 < u → 0 < d →
  (inject_Z n / inject_Z d <= inject_Z i / inject_Z u)%Q ↔ n * u ≤ i * d.
Proof.
  intros Hu Hd. destruct u as [|p|p]; try lia. destruct d as [|q|q]; try lia.
  unfold Qle, Qdiv, Qmult, Qinv, inject_Z. cbn. lia.
Qed.

(** The score in terms of the two finite sets. *)
Lemma jaccard_members (aSet bSet : StringSet) :
  NoDup aSet → NoDup bSet →
  let A := members aSet in
  let B := members bSet in
  jaccard aSet bSet
  = (inject_Z (Z.of_nat (size (A ∩ B)))
     / inject_Z (if Z.of_nat (size (A ∪ B)) =? 0 then 1
                 else Z.of_nat (size (A ∪ B))))%Q.
Proof.
  intros Ha Hb A B. unfold jaccard.
  rewrite count_common_size, !Set_size_members by done.
  fold A B. pose proof (size_union_intersection A B).
  replace (Z.of_nat (size A) + Z.of_nat (size B) - Z.of_nat (size (A ∩ B)))
    with (Z.of_nat (size (A ∪ B))) by lia.
  done.
Qed.

Lemma members_nil (set : StringSet) : members set = ∅ ↔ set = [].
Proof.
  unfold members. split; [|by intros ->].
  destruct set as [|x r]; [done|]. cbn. set_solver.
Qed.

Lemma jaccard_self (set : StringSet) :
  NoDup set → set ≠ [] → (jaccard set set == 1)%Q.
Proof.
  intros Hs Hne. rewrite jaccard_members by done. cbn zeta.
  rewrite intersection_idemp_L, union_idemp_L.
  assert (size (members set) ≠ 0%nat) as Hsz.
  { rewrite size_non_empty_iff. intros ?%leibniz_equiv%members_nil. done. }
  rewrite (proj2 (Z.eqb_neq _ _)) by lia.
  apply Zquot_one; lia.
Qed.

Lemma jaccard_empty : (jaccard [] [] == 0)%Q.
Proof. done. Qed.

Section Jaccard.
Variables aSet bSet : StringSet.
Hypothesis aSet_NoDup : NoDup aSet.
Hypothesis bSet_NoDup : NoDup bSet.

Let A := members aSet.
Let B := members bSet.

Lemma common_le_left : (size (A ∩ B) ≤ size A)%nat.
Proof. apply subseteq_size. set_solver. Qed.

Lemma common_le_right : (size (A ∩ B) ≤ size B)%nat.
Proof. apply subseteq_size. set_solver. Qed.

Lemma jaccard_nonempty_union :
  A ∪ B ≠ ∅ → (jaccard aSet bSet == jaccard_index A B)%Q.
Proof.
  intros Hne. rewrite jaccard_members by done. fold A B.
  unfold jaccard_index.
  assert (size (A ∪ B) ≠ 0%nat) as Hu.
  { rewrite size_non_empty_iff. by intros ?%leibniz_equiv. }
  by rewrite (proj2 (Z.eqb_neq _ _)) by lia.
Qed.

Lemma jaccard_bounds : (0 <= jaccard aSet bSet <= 1)%Q.
Proof.
  rewrite jaccard_members by done. fold A B.
  pose proof (size_union_intersection A B).
  pose proof common_le_left. pose proof common_le_right.
  apply Zquot_bounds; case_match; lia.
Qed.

Lemma jaccard_one_only_equal :
  (jaccard aSet bSet == 1)%Q → A = B ∧ A ≠ ∅.
Proof.
  rewrite jaccard_members by done. fold A B.
  pose proof (size_union_intersection A B) as Hsz.
  pose proof common_le_left as Hia. pose proof common_le_right as Hib.
  destruct (Z.eqb_spec (Z.of_nat (size (A ∪ B))) 0) as [Hz|Hz].
  - intros Hone. apply (proj1 (Zquot_one _ 1 eq_refl)) in Hone. lia.
  - intros Hone.
    assert (0 < Z.of_nat (size (A ∪ B))) as Hpos by lia.
    apply (proj1 (Zquot_one _ _ Hpos)) in Hone.
    assert (A ∩ B = A) as HA.
    { apply set_subseteq_size_eq; [set_solver|lia]. }
    assert (A ∩ B = B) as HB.
    { apply set_subseteq_size_eq; [set_solver|lia]. }
    split; [congruence|].
    intros Hempty.
    assert (B = ∅) as Hempty' by congruence.
    rewrite Hempty, Hempty', union_idemp_L, size_empty in Hz. done.
Qed.
End Jaccard.

Lemma jaccard_symmetric (aSet bSet : StringSet) :
  NoDup aSet → NoDup bSet → (jaccard aSet bSet == jaccard bSet aSet)%Q.
Proof.
  intros Ha Hb. rewrite (jaccard_members aSet bSet), (jaccard_members bSet aSet)
    by done. cbn zeta.
  by rewrite (intersection_comm_L (members bSet)),
    (union_comm_L (members bSet)).
Qed.

(** C9. On two sets (lists without duplicates), [jaccard] is the size
    of the intersection over the size of the union whenever the union is
    not empty, and 0 when both sets are empty; it is symmetric and lies
    between 0 and 1; it is 1 only for two equal, non-empty sets; and
    [toTrigrams] of a string shorter than 3 is the empty set. *)
Theorem jaccard_spec (aSet bSet : StringSet) :
  NoDup aSet → NoDup bSet →
  (members aSet ∪ members bSet ≠ ∅ →
     (jaccard aSet bSet == jaccard_index (members aSet) (members bSet))%Q)
  ∧ (jaccard aSet bSet == jaccard bSet aSet)%Q
  ∧ (0 <= jaccard aSet bSet <= 1)%Q
  ∧ ((jaccard aSet bSet == 1)%Q →
       members aSet = members bSet ∧ members aSet ≠ ∅)
  ∧ (jaccard [] [] == 0)%Q
  ∧ (∀ s : str, (length s < 3)%nat → toTrigrams s = []).
Proof.
  intros Ha Hb.
  split; [by apply jaccard_nonempty_union|].
  split; [by apply jaccard_symmetric|].
  split; [by apply jaccard_bounds|].
  split; [by apply jaccard_one_only_equal|].
  split; [apply jaccard_empty|apply toTrigrams_short].
Qed.

(** ** The candidate index *)

Lemma push_verse_app (si : nat) (s : Surah.t) (acc : list Candidate.t) (i : nat) :
  push_verse si s acc i
  = acc ++ single_candidate si s i
           :: (if decide (i + 1 < length (Surah.ayahs s))%nat
               then [pair_candidate si s i] else []).
Proof.
  unfold push_verse.
  destruct (Nat.ltb_spec (i + 1) (length (Surah.ayahs s))).
  - rewrite decide_True by done. by rewrite <- app_assoc.
  - rewrite decide_False by lia. done.
Qed.

Lemma foldl_push_verse (si : nat) (s : Surah.t) (idx : list nat)
    (acc : list Candidate.t) :
  foldl (push_verse si s) acc idx
  = acc ++ (i ← idx;
            single_candidate si s i
            :: (if decide (i + 1 < length (Surah.ayahs s))%nat
                then [pair_candidate si s i] else [])).
Proof.
  revert acc. induction idx as [|i idx IH]; intros acc; cbn.
  - by rewrite app_nil_r.
  - rewrite IH, push_verse_app, <- app_assoc. done.
Qed.

Lemma push_surah_app (acc : list Candidate.t) (si : nat) (s : Surah.t) :
  push_surah acc (si, s) = acc ++ chapter_block si s.
Proof. apply foldl_push_verse. Qed.

Lemma foldl_push_surah (h : nat → nat) (l : list Surah.t)
    (acc : list Candidate.t) :
  foldl push_surah acc (imap (λ i s, (h i, s)) l)
  = acc ++ mjoin (imap (λ i s, chapter_block (h i) s) l).
Proof.
  revert h acc. induction l as [|s l IH]; intros h acc.
  - cbn. by rewrite app_nil_r.
  - rewrite !imap_cons. cbn [foldl mjoin list_join].
    rewrite push_surah_app. rewrite (IH (h ∘ S)). by rewrite <- app_assoc.
Qed.

Lemma buildCandidates_blocks (corpus : Corpus.t) :
  buildCandidates corpus = mjoin (imap chapter_block (Corpus.surahs corpus)).
Proof. apply (foldl_push_surah id). Qed.

(** The candidates of verses [a .. a+m-1] of a chapter of [a+m] verses. *)
Lemma block_length (si : nat) (s : Surah.t) (m a : nat) :
  (a + m = length (Surah.ayahs s))%nat →
  length (i ← seq a m;
          single_candidate si s i
          :: (if decide (i + 1 < length (Surah.ayahs s))%nat
              then [pair_candidate si s i] else []))
  = (2 * m - (if decide (m = 0) then 0 else 1))%nat.
Proof.
  revert a. induction m as [|m IH]; intros a Ham; [done|].
  cbn [seq mbind list_bind]. rewrite length_app, IH by lia.
  repeat case_decide; cbn; lia.
Qed.

Lemma chapter_block_length (si : nat) (s : Surah.t) :
  Z.of_nat (length (chapter_block si s))
  = 2 * Z.of_nat (length (Surah.ayahs s))
    - (if decide (Surah.ayahs s = []) then 0 else 1).
Proof.
  unfold chapter_block. rewrite (block_length si s _ 0) by done.
  destruct (Surah.ayahs s) as [|a r]; [done|].
  rewrite decide_False by done. rewrite decide_False by done. cbn [length]. lia.
Qed.

Lemma block_lookup (si : nat) (s : Surah.t) (m a j : nat) :
  (a + m = length (Surah.ayahs s))%nat → (j < m)%nat →
  let block :=
    i ← seq a m;
    single_candidate si s i
    :: (if decide (i + 1 < length (Surah.ayahs s))%nat
        then [pair_candidate si s i] else []) in
  block !! (2 * j)%nat = Some (single_candidate si s (a + j))
  ∧ ((j + 1 < m)%nat →
     block !! (2 * j + 1)%nat = Some (pair_candidate si s (a + j))).
Proof.
  revert a j. induction m as [|m IH]; intros a j Ham Hj; [lia|].
  cbn zeta. cbn [seq mbind list_bind].
  destruct j as [|j].
  - rewrite Nat.add_0_r. split; [done|]. intros Hm.
    rewrite decide_True by lia. done.
  - destruct (IH (S a) j ltac:(lia) ltac:(lia)) as [Hs Hp].
    rewrite decide_True by lia.
    replace (2 * S j)%nat with (S (S (2 * j))) by lia.
    replace (S (S (2 * j)) + 1)%nat with (S (S (2 * j + 1))) by lia.
    replace (a + S j)%nat with (S a + j)%nat by lia.
    split; [exact Hs|]. intros Hm. apply Hp. lia.
Qed.

Lemma blocks_length (f : nat → Surah.t → list Candidate.t) (l : list Surah.t) :
  (∀ i s, ∃ si, f i s = chapter_block si s) →
  Z.of_nat (length (mjoin (imap f l)))
  = 2 * Z.of_nat (sum_list (length ∘ Surah.ayahs <$> l))
    - Z.of_nat (length (filter (λ s, Surah.ayahs s ≠ []) l)).
Proof.
  revert f. induction l as [|s l IH]; intros f Hf; [done|].
  rewrite imap_cons, filter_cons, fmap_cons.
  change (mjoin (f 0%nat s :: imap (f ∘ S) l))
    with (f 0%nat s ++ mjoin (imap (f ∘ S) l)).
  cbn [sum_list_with].
  rewrite length_app, Nat2Z.inj_add, (IH (f ∘ S)) by (intros i s'; apply Hf).
  destruct (Hf 0%nat s) as [si ->]. rewrite chapter_block_length.
  unfold compose, id.
  repeat case_decide; try done; cbn [length]; lia.
Qed.

Lemma chapter_block_elem (si : nat) (s : Surah.t) (c : Candidate.t) :
  c ∈ chapter_block si s →
  ∃ i, (i < length (Surah.ayahs s))%nat
       ∧ (c = single_candidate si s i
          ∨ ((i + 1 < length (Surah.ayahs s))%nat ∧ c = pair_candidate si s i)).
Proof.
  unfold chapter_block. intros (i & Hc & Hi)%list_elem_of_bind.
  apply elem_of_seq in Hi. exists i. split; [lia|].
  apply elem_of_cons in Hc as [->|Hc]; [by left|].
  case_decide; [|by apply elem_of_nil in Hc].
  apply list_elem_of_singleton in Hc as ->. by right.
Qed.

Lemma buildCandidates_elem (corpus : Corpus.t) (c : Candidate.t) :
  c ∈ buildCandidates corpus →
  ∃ si s i, Corpus.surahs corpus !! si = Some s
            ∧ (i < length (Surah.ayahs s))%nat
            ∧ (c = single_candidate si s i
               ∨ ((i + 1 < length (Surah.ayahs s))%nat
                  ∧ c = pair_candidate si s i)).
Proof.
  rewrite buildCandidates_blocks.
  intros (block & Hc & Hb)%list_elem_of_join.
  apply elem_of_lookup_imap in Hb as (si & s & -> & Hs).
  apply chapter_block_elem in Hc as (i & Hi & Hc). by exists si, s, i.
Qed.

(** C6, as amended.  [buildCandidates] emits [2N - C'] candidates, where
    [N] counts the verses and [C'] the chapters that hold at least one
    verse; this is [2N - C] when no chapter is empty.  The candidates come
    chapter by chapter in corpus order; inside a chapter verse [i+1]'s
    single candidate sits at place [2i] and the pair it opens, when verse
    [i+2] exists, at place [2i+1].  Every pair candidate joins two
    consecutive verses of one chapter. *)
Theorem buildCandidates_count_and_order (corpus : Corpus.t) :
  let surahs := Corpus.surahs corpus in
  let candidates := buildCandidates corpus in
  Z.of_nat (length candidates)
  = 2 * total_verses corpus - nonempty_chapters corpus
  ∧ (Forall (λ s, Surah.ayahs s ≠ []) surahs →
     Z.of_nat (length candidates)
     = 2 * total_verses corpus - total_chapters corpus)
  ∧ candidates = mjoin (imap chapter_block surahs)
  ∧ (∀ si s i,
       surahs !! si = Some s → (i < length (Surah.ayahs s))%nat →
       chapter_block si s !! (2 * i)%nat = Some (single_candidate si s i)
       ∧ ((i + 1 < length (Surah.ayahs s))%nat →
          chapter_block si s !! (2 * i + 1)%nat
          = Some (pair_candidate si s i)))
  ∧ (∀ c, c ∈ candidates → Candidate.ayahStart c ≠ None →
       ∃ si s i a1 a2,
         surahs !! si = Some s
         ∧ Surah.ayahs s !! i = Some a1
         ∧ Surah.ayahs s !! (i + 1)%nat = Some a2
         ∧ Candidate.surah c = arName si s
         ∧ Candidate.ayahStart c = Some (number_of_nat (i + 1))
         ∧ Candidate.ayahEnd c = Some (number_of_nat (i + 2))
         ∧ Candidate.text c = Ayah.text a1 ++ [SPACE] ++ Ayah.text a2).
Proof.
  intros surahs candidates.
  assert (Z.of_nat (length candidates)
          = 2 * total_verses corpus - nonempty_chapters corpus) as Hcount.
  { unfold candidates. rewrite buildCandidates_blocks.
    apply blocks_length. intros i s. by exists i. }
  split_and!.
  - exact Hcount.
  - intros Hne. rewrite Hcount. unfold nonempty_chapters, total_chapters.
    fold surahs. f_equal. f_equal. f_equal.
    clear Hcount. induction Hne as [|s l Hs _ IH]; [done|].
    by rewrite filter_cons_True, IH.
  - apply buildCandidates_blocks.
  - intros si s i _ Hi.
    exact (block_lookup si s (length (Surah.ayahs s)) 0 i eq_refl Hi).
  - intros c Hc Hpair.
    apply buildCandidates_elem in Hc as (si & s & i & Hs & Hi & [->| [Hi' ->]]).
    { by destruct Hpair. }
    destruct (lookup_lt_is_Some_2 (Surah.ayahs s) i Hi) as [a1 Ha1].
    destruct (lookup_lt_is_Some_2 (Surah.ayahs s) (i + 1) Hi') as [a2 Ha2].
    exists si, s, i, a1, a2. split_and!; try done.
    cbn. unfold ayah_text. by rewrite Ha1, Ha2.
Qed.

(** ** The local matcher *)

Lemma Qgtb_lt (a b : Q) : Qgtb a b = true ↔ (b < a)%Q.
Proof.
  unfold Qgtb. rewrite negb_true_iff, <- not_true_iff_false, Qle_bool_iff.
  split; [apply Qnot_le_lt|apply Qlt_not_le].
Qed.

Lemma Qgtb_le (a b : Q) : Qgtb a b = false ↔ (a <= b)%Q.
Proof. unfold Qgtb. by rewrite negb_false_iff, Qle_bool_iff. Qed.

Lemma truthy_str_nonempty (s : str) : truthy_str s = true ↔ s ≠ [].
Proof. by destruct s. Qed.

Lemma scan_candidate_skipped (tSet : StringSet) best (c : Candidate.t) :
  ¬ scored c → scan_candidate tSet best c = best.
Proof.
  unfold scored, scan_candidate. intros Hc.
  destruct (normalizeArabic (Candidate.text c)); [done|]. by destruct Hc.
Qed.

Lemma scan_candidate_scored (tSet : StringSet) best (c : Candidate.t) :
  scored c →
  scan_candidate tSet best c
  = match best with
    | None => Some (c, score_of tSet c)
    | Some (_, best_score) =>
        if Qgtb (score_of tSet c) best_score then Some (c, score_of tSet c)
        else best
    end.
Proof.
  unfold scored, scan_candidate, score_of. intros Hc.
  by destruct (normalizeArabic (Candidate.text c)).
Qed.

Lemma best_candidate_snoc (tSet : StringSet) (l : list Candidate.t)
    (c : Candidate.t) :
  best_candidate tSet (l ++ [c]) = scan_candidate tSet (best_candidate tSet l) c.
Proof. unfold best_candidate. by rewrite foldl_snoc. Qed.

(** The state of the loop after the candidates [l]. *)
Lemma best_candidate_invariant (tSet : StringSet) (l : list Candidate.t) :
  match best_candidate tSet l with
  | None => ∀ c, c ∈ l → ¬ scored c
  | Some (best, score) =>
      score = score_of tSet best ∧ ∃ k, first_best tSet l k best
  end.
Proof.
  induction l as [|c l IH] using rev_ind.
  - cbn. by intros c ?%elem_of_nil.
  - rewrite best_candidate_snoc.
    destruct (decide (scored c)) as [Hc|Hc].
    + rewrite scan_candidate_scored by done.
      destruct (best_candidate tSet l) as [[best score]|].
      * destruct IH as [-> (k & Hk & Hbest & Hall)].
        destruct (Qgtb (score_of tSet c) (score_of tSet best)) eqn:Hgt.
        -- apply Qgtb_lt in Hgt. split; [done|]. exists (length l).
           split_and!; [by rewrite list_lookup_middle|done|].
           intros j c' Hj Hc'.
           destruct (decide (j < length l)%nat) as [Hlt|Hge].
           ++ rewrite lookup_app_l in Hj by done.
              destruct (Hall j c' Hj Hc') as [Hle _].
              split; [|intros _]; [apply Qlt_le_weak|];
                by eapply Qle_lt_trans.
           ++ apply lookup_lt_Some in Hj as Hj'. rewrite length_app in Hj'.
              cbn in Hj'. assert (j = length l) as -> by lia.
              rewrite list_lookup_middle in Hj by done. injection Hj as <-.
              split; [apply Qle_refl|lia].
        -- apply Qgtb_le in Hgt. split; [done|]. exists k.
           apply lookup_lt_Some in Hk as Hk'.
           split_and!; [by rewrite lookup_app_l|done|].
           intros j c' Hj Hc'.
           destruct (decide (j < length l)%nat) as [Hlt|Hge].
           ++ rewrite lookup_app_l in Hj by done. by apply Hall.
           ++ apply lookup_lt_Some in Hj as Hj'. rewrite length_app in Hj'.
              cbn in Hj'. assert (j = length l) as -> by lia.
              rewrite list_lookup_middle in Hj by done. injection Hj as <-.
              split; [done|lia].
      * split; [done|]. exists (length l).
        split_and!; [by rewrite list_lookup_middle|done|].
        intros j c' Hj Hc'.
        destruct (decide (j < length l)%nat) as [Hlt|Hge].
        -- rewrite lookup_app_l in Hj by done.
           destruct (IH c'); [|done]. by eapply list_elem_of_lookup_2.
        -- apply lookup_lt_Some in Hj as Hj'. rewrite length_app in Hj'.
           cbn in Hj'. assert (j = length l) as -> by lia.
           rewrite list_lookup_middle in Hj by done. injection Hj as <-.
           split; [apply Qle_refl|lia].
    + rewrite scan_candidate_skipped by done.
      destruct (best_candidate tSet l) as [[best score]|].
      * destruct IH as [-> (k & Hk & Hbest & Hall)]. split; [done|].
        exists k. apply lookup_lt_Some in Hk as Hk'.
        split_and!; [by rewrite lookup_app_l|done|].
        intros j c' Hj Hc'.
        destruct (decide (j < length l)%nat) as [Hlt|Hge].
        -- rewrite lookup_app_l in Hj by done. by apply Hall.
        -- apply lookup_lt_Some in Hj as Hj'. rewrite length_app in Hj'.
           cbn in Hj'. assert (j = length l) as -> by lia.
           rewrite list_lookup_middle in Hj by done. injection Hj as <-. done.
      * intros c' [Hc'| ->%list_elem_of_singleton]%elem_of_app; [|done].
        by apply IH.
Qed.

Lemma truthy_number_of_nat (n : nat) :
  truthy_number (number_of_nat (n + 1)) = true.
Proof.
  unfold number_of_nat, number_of_Z, truthy_number, inject_Z. cbn [Qnum].
  apply negb_true_iff, Z.eqb_neq. lia.
Qed.

Lemma match_result_fields (corpus : Corpus.t) (best : Candidate.t) :
  best ∈ buildCandidates corpus →
  Result.surah (match_result best) = VStr (Candidate.surah best)
  ∧ Result.arabic (match_result best) = VStr (Candidate.text best)
  ∧ Result.translation (match_result best) = VStr (js "—")
  ∧ Result.ayah (match_result best) = Candidate.ayah best
  ∧ Result.ayahStart (match_result best) = Candidate.ayahStart best
  ∧ Result.ayahEnd (match_result best) = Candidate.ayahEnd best
  ∧ Result.ayahs (match_result best) = None.
Proof.
  intros (si & s & i & _ & _ & [->|[_ ->]])%buildCandidates_elem.
  - unfold match_result, single_candidate.
    cbn [Candidate.ayah Candidate.ayahEnd Candidate.ayahStart truthy_field].
    rewrite truthy_number_of_nat. done.
  - unfold match_result, pair_candidate.
    cbn [Candidate.ayah Candidate.ayahEnd Candidate.ayahStart truthy_field].
    replace (i + 2)%nat with (i + 1 + 1)%nat by lia.
    rewrite !truthy_number_of_nat. done.
Qed.

Lemma score_of_bounds (tSet : StringSet) (c : Candidate.t) :
  NoDup tSet → (0 <= score_of tSet c <= 1)%Q.
Proof.
  intros Ht. unfold score_of.
  apply jaccard_bounds; [done|apply toTrigrams_NoDup].
Qed.

(** C7. The loop keeps the first of the highest scoring candidates: a
    candidate that scores exactly the score kept so far does not replace
    it, so the candidate kept after the loop scores at least as high as
    every scored candidate and strictly higher than every one before
    it; the result of [identifyByCorpus] is built from that one. *)
Theorem identifyByCorpus_first_write_wins (corpus : Corpus.t) (transcript : str) :
  let tSet := toTrigrams (normalizeArabic transcript) in
  let candidates := buildCandidates corpus in
  (∀ kept score c,
     scored c → (score_of tSet c == score)%Q →
     scan_candidate tSet (Some (kept, score)) c = Some (kept, score))
  ∧ (∀ best score,
       best_candidate tSet candidates = Some (best, score) →
       score = score_of tSet best ∧ ∃ k, first_best tSet candidates k best)
  ∧ ((∃ c, c ∈ candidates ∧ scored c) →
     is_Some (best_candidate tSet candidates))
  ∧ (∀ r, identifyByCorpus (Some corpus) transcript = Some r →
       ∃ k best, first_best tSet candidates k best ∧ r = match_result best).
Proof.
  intros tSet candidates.
  pose proof (best_candidate_invariant tSet candidates) as Hinv.
  split_and!.
  - intros kept score c Hc Heq. rewrite scan_candidate_scored by done.
    assert (Qgtb (score_of tSet c) score = false) as ->; [|done].
    apply Qgtb_le. rewrite Heq. apply Qle_refl.
  - intros best score Hbest. by rewrite Hbest in Hinv.
  - intros (c & Hin & Hc).
    destruct (best_candidate tSet candidates) as [b|]; [by eexists|].
    by destruct (Hinv c Hin).
  - intros r. unfold identifyByCorpus. fold tSet candidates.
    destruct (truthy_str (normalizeArabic transcript)); [|done].
    destruct (best_candidate tSet candidates) as [[best score]|]; [|done].
    destruct (Qle_bool THRESHOLD score); [|done].
    intros [= <-]. destruct Hinv as [_ [k Hk]]. by exists k, best.
Qed.

(** C1. [identifyByCorpus] returns [null] when the corpus is absent,
    when the normalized transcript is empty, and when the best score is
    below 0.12; a result it returns is built from a candidate of the
    corpus whose Jaccard score against the normalized transcript is at
    least 0.12 (and at most 1). *)
Theorem identifyByCorpus_threshold (corpus : option Corpus.t) (transcript : str) :
  let tSet := toTrigrams (normalizeArabic transcript) in
  identifyByCorpus None transcript = None
  ∧ (normalizeArabic transcript = [] →
     identifyByCorpus corpus transcript = None)
  ∧ (∀ c best score,
       corpus = Some c →
       best_candidate tSet (buildCandidates c) = Some (best, score) →
       (score < THRESHOLD)%Q →
       identifyByCorpus corpus transcript = None)
  ∧ (∀ r, identifyByCorpus corpus transcript = Some r →
       ∃ c best,
         corpus = Some c
         ∧ best ∈ buildCandidates c
         ∧ (12 # 100 <= score_of tSet best <= 1)%Q
         ∧ Result.surah r = VStr (Candidate.surah best)
         ∧ Result.arabic r = VStr (Candidate.text best)
         ∧ Result.translation r = VStr (js "—")
         ∧ Result.ayah r = Candidate.ayah best
         ∧ Result.ayahStart r = Candidate.ayahStart best
         ∧ Result.ayahEnd r = Candidate.ayahEnd best
         ∧ Result.ayahs r = None).
Proof.
  intros tSet. split_and!.
  - done.
  - intros HT. unfold identifyByCorpus. destruct corpus; [|done].
    by rewrite HT.
  - intros c best score -> Hbest Hlow. unfold identifyByCorpus.
    destruct (truthy_str (normalizeArabic transcript)); [|done].
    fold tSet. rewrite Hbest.
    destruct (Qle_bool THRESHOLD score) eqn:Hle; [|done].
    apply Qle_bool_iff in Hle. by destruct (Qlt_not_le _ _ Hlow).
  - intros r. unfold identifyByCorpus. destruct corpus as [c|]; [|done].
    destruct (truthy_str (normalizeArabic transcript)); [|done].
    fold tSet.
    pose proof (best_candidate_invariant tSet (buildCandidates c)) as Hinv.
    destruct (best_candidate tSet (buildCandidates c)) as [[best score]|];
      [|done].
    destruct (Qle_bool THRESHOLD score) eqn:Hle; [|done].
    intros [= <-]. apply Qle_bool_iff in Hle.
    destruct Hinv as [-> (k & Hk & _)].
    apply list_elem_of_lookup_2 in Hk.
    exists c, best. split; [done|]. split; [done|].
    split.
    { split; [exact Hle|]. apply score_of_bounds, toTrigrams_NoDup. }
    apply (match_result_fields c best Hk).
Qed.

(** C10. Every code unit of [normalizeArabic(s)] lies in the Arabic
    block or is a space; the result neither starts nor ends with white
    space and holds no two consecutive white space units.  A string
    without a code unit of the Arabic block normalizes to the empty
    string, and [identifyByCorpus] then returns [null]. *)
Theorem normalizeArabic_shape (s : str) :
  Forall (λ c, is_arabic c ∨ c = SPACE) (normalizeArabic s)
  ∧ (∀ c, head (normalizeArabic s) = Some c → ¬ is_space c)
  ∧ (∀ c, last (normalizeArabic s) = Some c → ¬ is_space c)
  ∧ no_double_space (normalizeArabic s)
  ∧ (Forall (λ c, ¬ is_arabic c) s →
     normalizeArabic s = [] ∧ ∀ corpus, identifyByCorpus corpus s = None).
Proof.
  destruct (normalizeArabic_normalized s) as (Hset & Hsp & Hhd & Hlast).
  split_and!; [|done|done| |].
  - eapply Forall_impl; [exact Hset|]. apply settled_arabic_or_space.
  - by eapply single_spaced_no_double.
  - intros Hs. apply normalizeArabic_foreign in Hs. split; [done|].
    intros [c|]; [|done]. unfold identifyByCorpus. by rewrite Hs.
Qed.

(** ** Similarity of a normalized string with itself *)

(** C5, as amended.  The score of the trigram set of [normalizeArabic(s)]
    against itself is 1 when the normalized string has at least 3 code
    units, and 0 when it has fewer (its trigram set is then empty). *)
Theorem similarity_reflexive (s : str) :
  let tSet := toTrigrams (normalizeArabic s) in
  ((3 ≤ length (normalizeArabic s))%nat → (jaccard tSet tSet == 1)%Q)
  ∧ ((length (normalizeArabic s) < 3)%nat → (jaccard tSet tSet == 0)%Q).
Proof.
  intros tSet. split; intros Hlen.
  - apply jaccard_self; [apply toTrigrams_NoDup|by apply toTrigrams_long].
  - unfold tSet. rewrite toTrigrams_short by done. apply jaccard_empty.
Qed.

Lemma similarity_reflexive_witness :
  (3 ≤ length (normalizeArabic (js "بِسْمِ")))%nat
  ∧ (jaccard (toTrigrams (normalizeArabic (js "بِسْمِ")))
       (toTrigrams (normalizeArabic (js "بِسْمِ"))) == 1)%Q.
Proof.
  assert (3 ≤ length (normalizeArabic (js "بِسْمِ")))%nat as Hlen
    by (vm_compute; lia).
  split; [exact Hlen|].
  exact (proj1 (similarity_reflexive (js "بِسْمِ")) Hlen).
Defined.

(** The string ["abc"] is not empty and has length 3, yet its normalized
    form is empty and scores 0 against itself. *)
Lemma similarity_not_reflexive_on_latin :
  js "abc" ≠ []
  ∧ (3 ≤ length (js "abc"))%nat
  ∧ normalizeArabic (js "abc") = []
  ∧ ¬ (jaccard (toTrigrams (normalizeArabic (js "abc")))
         (toTrigrams (normalizeArabic (js "abc"))) == 1)%Q.
Proof.
  split; [done|]. split; [vm_compute; lia|]. split; [by vm_compute|].
  by vm_compute.
Qed.

Lemma jaccard_spec_witness :
  let aSet := toTrigrams (js "abcd") in
  let bSet := toTrigrams (js "bcde") in
  NoDup aSet ∧ NoDup bSet
  ∧ (jaccard aSet bSet == 1 # 3)%Q
  ∧ (jaccard aSet bSet == jaccard bSet aSet)%Q
  ∧ (0 <= jaccard aSet bSet <= 1)%Q.
Proof.
  intros aSet bSet.
  assert (NoDup aSet) as Ha by (refine (bool_decide_unpack _ _); vm_compute; exact I).
  assert (NoDup bSet) as Hb by (refine (bool_decide_unpack _ _); vm_compute; exact I).
  destruct (jaccard_spec aSet bSet Ha Hb) as (_ & Hsym & Hrange & _).
  split; [exact Ha|]. split; [exact Hb|]. split; [by vm_compute|done].
Defined.

(** ** The order of the comparator [(a, b) => a - b] *)






(** ** [Array.prototype.sort] *)








(** ** The label of a result *)

Section Labels.
Variable NumberToString : number → list Z.


End Labels.

(** ** The coercion of the remote reply *)

Section RemoteReply.
Variable StringToNumber : list Z → number.
Variable NumberToString : number → list Z.

Local Abbreviation ToNumber := (ToNumber StringToNumber NumberToString).
Local Abbreviation coerce_number := (coerce_number StringToNumber NumberToString).
Local Abbreviation coerce_list := (coerce_list StringToNumber NumberToString).
Local Abbreviation identifySurahFromTranscript :=
  (identifySurahFromTranscript StringToNumber NumberToString).

Lemma truthy_number_not_NaN (n : number) : truthy_number n = true → n ≠ NaN.
Proof. by destruct n. Qed.

Lemma coerce_number_not_NaN (a b : option value) (n : number) :
  coerce_number a b = Some n → n ≠ NaN.
Proof.
  unfold coerce_number. destruct (ToNumber _) as [m|]; [|done].
  cbn [mbind option_bind]. intros [= <-].
  destruct (truthy_number m) eqn:Hm; [by apply truthy_number_not_NaN|done].
Qed.

Lemma coerce_number_missing (a b : option value) :
  or_else a b = None → coerce_number a b = Some ZERO.
Proof. unfold coerce_number. by intros ->. Qed.

Lemma coerce_number_value (a b : option value) (v : value) :
  or_else a b = Some v → truthy v = true →
  coerce_number a b
  = n ← ToNumber v; Some (if truthy_number n then n else ZERO).
Proof. unfold coerce_number. intros -> Hv. cbn [or_value]. by rewrite Hv. Qed.

Lemma coerce_number_falsy (a b : option value) (v : value) :
  or_else a b = Some v → truthy v = false → coerce_number a b = Some ZERO.
Proof. unfold coerce_number. intros -> Hv. cbn [or_value]. by rewrite Hv. Qed.

Lemma coerce_list_truthy (v : option value) (l : list number) (n : number) :
  coerce_list v = Some (Some l) → n ∈ l → truthy_number n = true.
Proof.
  unfold coerce_list. destruct v as [[]|]; try done.
  destruct (mapM _ _) as [numbers|]; [|done]. cbn [mbind option_bind].
  intros [= <-] [Hn _]%list_elem_of_filter. by apply Is_true_true.
Qed.

(** *** When a conversion throws *)

Lemma ToString_object (props : list (list Z * value)) :
  ToString NumberToString (VObj props) = None
  ↔ lookup_prop (js "toString") props ≠ None.
Proof.
  cbn [ToString]. destruct (lookup_prop (js "toString") props); split; done.
Qed.

Lemma ToString_array (items : list value) :
  ToString NumberToString (VArr items) = None
  ↔ ∃ x, x ∈ items ∧ ToString NumberToString x = None.
Proof.
  cbn [ToString]. rewrite fmap_None.
  match goal with |- ?f items = None ↔ _ => set (elements := f) end.
  assert (∀ x rest,
            elements (x :: rest)
            = match match x with
                    | VNull => Some []
                    | _ => ToString NumberToString x
                    end, elements rest with
              | Some p, Some ps => Some (p :: ps)
              | _, _ => None
              end) as Hcons by done.
  induction items as [|x rest IH].
  - split; [done|]. by intros (x & ?%elem_of_nil & _).
  - rewrite Hcons.
    assert (match x with
            | VNull => Some []
            | _ => ToString NumberToString x
            end = None ↔ ToString NumberToString x = None) as Hx
      by (by destruct x).
    destruct (match x with VNull => Some [] | _ => ToString NumberToString x end)
      as [p|].
    + destruct (elements rest) as [ps|].
      * split; [done|]. intros (y & [->|Hy]%elem_of_cons & Hnone).
        -- by apply Hx in Hnone.
        -- assert (Some ps = None) as Hps; [|done].
           apply (proj2 IH). by exists y.
      * split; [|done]. intros _.
        destruct (proj1 IH eq_refl) as (y & Hy & Hnone).
        exists y. split; [by right|done].
    + split; [|done]. intros _. exists x. split; [by left|by apply Hx].
Qed.

Lemma ToNumber_throws (v : value) :
  ToNumber v = None
  ↔ match v with
    | VObj props => lookup_prop (js "toString") props ≠ None
    | VArr items => ∃ x, x ∈ items ∧ ToString NumberToString x = None
    | _ => False
    end.
Proof.
  destruct v as [|b|n|s|items|props]; try (split; [done|by intros []]).
  - unfold ToNumber. rewrite fmap_None. apply ToString_array.
  - unfold ToNumber. rewrite fmap_None. apply ToString_object.
Qed.

(** *** What the call ends with *)

Lemma identifySurahFromTranscript_Throws (transcript : str) (parsed : value) :
  parsed ≠ VNull →
  identifySurahFromTranscript transcript (Some parsed) = Throws
  ↔ coerce_number (get parsed (js "ayah")) (get parsed (js "verse")) = None
    ∨ coerce_number (get parsed (js "ayahStart"))
        (get parsed (js "verseStart")) = None
    ∨ coerce_number (get parsed (js "ayahEnd")) (get parsed (js "verseEnd"))
      = None
    ∨ coerce_list (get parsed (js "ayahs")) = None.
Proof.
  intros Hnull. unfold identifySurahFromTranscript.
  destruct (coerce_number (get parsed (js "ayah")) _) as [ayah|];
    destruct (coerce_number (get parsed (js "ayahStart")) _) as [ayahStart|];
    destruct (coerce_number (get parsed (js "ayahEnd")) _) as [ayahEnd|];
    destruct (coerce_list _) as [ayahs|];
    destruct parsed; try done;
    try (split; [intros _|done]; auto).
  all: split; [|by intros [|[|[|]]]].
  all: destruct ayahs as [[|x l]|]; try done.
  all: by destruct (truthy_number ayahStart && truthy_number ayahEnd).
Qed.

Lemma identifySurahFromTranscript_Returns (transcript : str) (parsed : value)
    (ayah ayahStart ayahEnd : number) (ayahs : option (list number)) :
  parsed ≠ VNull →
  coerce_number (get parsed (js "ayah")) (get parsed (js "verse")) = Some ayah →
  coerce_number (get parsed (js "ayahStart")) (get parsed (js "verseStart"))
  = Some ayahStart →
  coerce_number (get parsed (js "ayahEnd")) (get parsed (js "verseEnd"))
  = Some ayahEnd →
  coerce_list (get parsed (js "ayahs")) = Some ayahs →
  ∃ r,
    identifySurahFromTranscript transcript (Some parsed) = Returns (Some r)
    ∧ Result.surah r
      = or_value (or_else (get parsed (js "surah")) (get parsed (js "chapter")))
          (VStr (js "—"))
    ∧ Result.arabic r = or_value (get parsed (js "arabic")) (VStr transcript)
    ∧ Result.translation r
      = or_value (get parsed (js "translation")) (VStr (js "—"))
    ∧ (Result.ayahs r, Result.ayahStart r, Result.ayahEnd r, Result.ayah r)
      = match ayahs with
        | Some (_ :: _) => (ayahs, None, None, None)
        | _ =>
            if truthy_number ayahStart && truthy_number ayahEnd
            then (None, Some ayahStart, Some ayahEnd, None)
            else (None, None, None, Some ayah)
        end.
Proof.
  intros Hnull Hayah Hstart Hend Hayahs. unfold identifySurahFromTranscript.
  rewrite Hayah, Hstart, Hend, Hayahs.
  destruct parsed; try done; destruct ayahs as [[|x l]|];
    destruct (truthy_number ayahStart && truthy_number ayahEnd);
    (eexists; split; [reflexivity|done]).
Qed.

Lemma identifySurahFromTranscript_inv (transcript : str) (parsed : value)
    (r : Result.t) :
  identifySurahFromTranscript transcript (Some parsed) = Returns (Some r) →
  ∃ ayah ayahStart ayahEnd ayahs,
    coerce_number (get parsed (js "ayah")) (get parsed (js "verse")) = Some ayah
    ∧ coerce_number (get parsed (js "ayahStart")) (get parsed (js "verseStart"))
      = Some ayahStart
    ∧ coerce_number (get parsed (js "ayahEnd")) (get parsed (js "verseEnd"))
      = Some ayahEnd
    ∧ coerce_list (get parsed (js "ayahs")) = Some ayahs
    ∧ Result.surah r
      = or_value (or_else (get parsed (js "surah")) (get parsed (js "chapter")))
          (VStr (js "—"))
    ∧ (Result.ayahs r, Result.ayahStart r, Result.ayahEnd r, Result.ayah r)
      = match ayahs with
        | Some (_ :: _) => (ayahs, None, None, None)
        | _ =>
            if truthy_number ayahStart && truthy_number ayahEnd
            then (None, Some ayahStart, Some ayahEnd, None)
            else (None, None, None, Some ayah)
        end.
Proof.
  intros Hr.
  assert (parsed ≠ VNull) as Hnull by (by intros ->).
  destruct (coerce_number (get parsed (js "ayah")) (get parsed (js "verse")))
    as [ayah|] eqn:Hayah.
  2:{ assert (identifySurahFromTranscript transcript (Some parsed) = Throws)
        as Ht by (apply identifySurahFromTranscript_Throws; auto).
      by rewrite Ht in Hr. }
  destruct (coerce_number (get parsed (js "ayahStart"))
              (get parsed (js "verseStart"))) as [ayahStart|] eqn:Hstart.
  2:{ assert (identifySurahFromTranscript transcript (Some parsed) = Throws)
        as Ht by (apply identifySurahFromTranscript_Throws; auto).
      by rewrite Ht in Hr. }
  destruct (coerce_number (get parsed (js "ayahEnd"))
              (get parsed (js "verseEnd"))) as [ayahEnd|] eqn:Hend.
  2:{ assert (identifySurahFromTranscript transcript (Some parsed) = Throws)
        as Ht by (apply identifySurahFromTranscript_Throws; auto).
      by rewrite Ht in Hr. }
  destruct (coerce_list (get parsed (js "ayahs"))) as [ayahs|] eqn:Hayahs.
  2:{ assert (identifySurahFromTranscript transcript (Some parsed) = Throws)
        as Ht by (apply identifySurahFromTranscript_Throws; auto).
      by rewrite Ht in Hr. }
  destruct (identifySurahFromTranscript_Returns transcript parsed
              ayah ayahStart ayahEnd ayahs Hnull Hayah Hstart Hend Hayahs)
    as (r' & Hr' & Hsurah & _ & _ & Hfields).
  rewrite Hr' in Hr. injection Hr as <-.
  by exists ayah, ayahStart, ayahEnd, ayahs.
Qed.

(** C3, as amended.  For a parsed reply that is not [null] the call
    either throws, which it does exactly when a [Number()] of the
    coercion throws, or returns a result whose verse locator is, in this
    order of priority: the list of verse numbers, when the reply's
    [ayahs] is an array that still holds a number after coercion; else
    the range, when both [ayahStart] and [ayahEnd] coerce to a number
    that is not zero; else the single verse number.  A scalar field is
    [Number()] of the first truthy of its two keys: it is kept as it is,
    integer or not, when that is a number other than 0 and [NaN], and is
    0 when the keys are missing or falsy or when the value is not
    numeric ([NaN]).  The entries of [ayahs] are coerced by [Number()]
    and those that give 0 or [NaN] are dropped; the list is absent when
    [ayahs] is not an array.  [Number()] throws on an object that has a
    key ["toString"] of its own and on an array with an element whose
    string conversion throws, and on nothing else. *)
Theorem identifySurahFromTranscript_coercion (transcript : str) (parsed : value) :
  parsed ≠ VNull →
  let ayah := coerce_number (get parsed (js "ayah")) (get parsed (js "verse")) in
  let ayahStart :=
    coerce_number (get parsed (js "ayahStart")) (get parsed (js "verseStart")) in
  let ayahEnd :=
    coerce_number (get parsed (js "ayahEnd")) (get parsed (js "verseEnd")) in
  let ayahs := coerce_list (get parsed (js "ayahs")) in
  (identifySurahFromTranscript transcript (Some parsed) = Throws
   ↔ ayah = None ∨ ayahStart = None ∨ ayahEnd = None ∨ ayahs = None)
  ∧ (∀ n s e l,
       ayah = Some n → ayahStart = Some s → ayahEnd = Some e → ayahs = Some l →
       (∃ r,
          identifySurahFromTranscript transcript (Some parsed)
          = Returns (Some r)
          ∧ (Result.ayahs r, Result.ayahStart r, Result.ayahEnd r,
             Result.ayah r)
            = match l with
              | Some (_ :: _) => (l, None, None, None)
              | _ =>
                  if truthy_number s && truthy_number e
                  then (None, Some s, Some e, None)
                  else (None, None, None, Some n)
              end)
       ∧ n ≠ NaN ∧ s ≠ NaN ∧ e ≠ NaN)
  ∧ (∀ a b, or_else a b = None → coerce_number a b = Some ZERO)
  ∧ (∀ a b v, or_else a b = Some v → truthy v = false →
       coerce_number a b = Some ZERO)
  ∧ (∀ a b v, or_else a b = Some v → truthy v = true →
       coerce_number a b
       = n ← ToNumber v; Some (if truthy_number n then n else ZERO))
  ∧ (∀ a b n, a = Some (VNum n) → truthy_number n = true →
       coerce_number a b = Some n)
  ∧ (∀ v,
       ToNumber v = None
       ↔ match v with
         | VObj props => lookup_prop (js "toString") props ≠ None
         | VArr items => ∃ x, x ∈ items ∧ ToString NumberToString x = None
         | _ => False
         end)
  ∧ (∀ l n, ayahs = Some (Some l) → n ∈ l → truthy_number n = true)
  ∧ (∀ items,
       get parsed (js "ayahs") = Some (VArr items) →
       (ayahs = None ↔ Exists (λ x, ToNumber x = None) items)
       ∧ ∀ numbers,
           Forall2 (λ x n, ToNumber x = Some n) items numbers →
           ayahs = Some (Some (filter (λ n, truthy_number n) numbers)))
  ∧ ((∀ items, get parsed (js "ayahs") ≠ Some (VArr items)) →
     ayahs = Some None).
Proof.
  intros Hnull ayah ayahStart ayahEnd ayahs. split_and!.
  - by apply identifySurahFromTranscript_Throws.
  - intros n s e l Hn Hs He Hl. split_and!.
    + destruct (identifySurahFromTranscript_Returns transcript parsed
                  n s e l Hnull Hn Hs He Hl) as (r & Hr & _ & _ & _ & Hfields).
      by exists r.
    + by eapply coerce_number_not_NaN.
    + by eapply coerce_number_not_NaN.
    + by eapply coerce_number_not_NaN.
  - apply coerce_number_missing.
  - apply coerce_number_falsy.
  - apply coerce_number_value.
  - intros a b n -> Hn.
    rewrite (coerce_number_value _ b (VNum n)); cbn; by rewrite Hn.
  - apply ToNumber_throws.
  - apply coerce_list_truthy.
  - intros items Hitems. unfold ayahs, coerce_list. rewrite Hitems. split.
    + rewrite <- mapM_None. by destruct (mapM _ items).
    + intros numbers Hall. by rewrite (mapM_Some_2 _ _ _ Hall).
  - intros Hnot. unfold ayahs, coerce_list.
    destruct (get parsed (js "ayahs")) as [[]|]; try done.
    by edestruct Hnot.
Qed.

End RemoteReply.

Lemma identifySurahFromTranscript_coercion_witness :
  let parsed :=
    VObj [(js "surah", VStr (js "البقرة"));
          (js "ayahStart", VNum (number_of_Z 2));
          (js "ayahEnd", VNum (number_of_Z 4));
          (js "ayah", VNum (number_of_Z 7))] in
  parsed ≠ VNull
  ∧ ∃ r,
      identifySurahFromTranscript decimal_StringToNumber decimal_NumberToString
        [] (Some parsed) = Returns (Some r)
      ∧ (Result.ayahs r, Result.ayahStart r, Result.ayahEnd r, Result.ayah r)
        = (None, Some (number_of_Z 2), Some (number_of_Z 4), None).
Proof.
  intros parsed.
  assert (parsed ≠ VNull) as Hnull by discriminate.
  split; [exact Hnull|].
  exact (proj1 (proj1 (proj2 (identifySurahFromTranscript_coercion
                                decimal_StringToNumber decimal_NumberToString
                                [] parsed Hnull))
                  (number_of_Z 7) (number_of_Z 2) (number_of_Z 4) None
                  eq_refl eq_refl eq_refl eq_refl)).
Defined.

(** The reply [{"ayah": 2.5}] gives a result whose verse number is 2.5:
    [Number()] does not round.  The reply [{"ayah": {"toString": 1}}]
    gives no result at all: its [ayah] is not numeric, yet it does not
    default to 0, for [Number()] throws on it. *)
Lemma identifySurahFromTranscript_fraction_and_throw :
  (let parsed := VObj [(js "ayah", VNum (Finite (5 # 2)))] in
   ∃ r,
     identifySurahFromTranscript decimal_StringToNumber decimal_NumberToString
       [] (Some parsed) = Returns (Some r)
     ∧ Result.ayah r = Some (Finite (5 # 2))
     ∧ is_integer (Finite (5 # 2)) = false)
  ∧ (let parsed :=
       VObj [(js "ayah", VObj [(js "toString", VNum (number_of_Z 1))])] in
     identifySurahFromTranscript decimal_StringToNumber decimal_NumberToString
       [] (Some parsed) = Throws).
Proof. split; [eexists|]; by vm_compute. Qed.

(** ** The label of a verse list *)

Lemma identifyByCorpus_Some (corpus : Corpus.t) (transcript : str)
    (r : Result.t) :
  identifyByCorpus (Some corpus) transcript = Some r →
  ∃ best, best ∈ buildCandidates corpus ∧ r = match_result best.
Proof.
  unfold identifyByCorpus.
  destruct (truthy_str (normalizeArabic transcript)); [|done].
  pose proof (best_candidate_invariant
                (toTrigrams (normalizeArabic transcript))
                (buildCandidates corpus)) as Hinv.
  destruct (best_candidate _ _) as [[best score]|]; [|done].
  destruct (Qle_bool THRESHOLD score); [|done].
  intros [= <-]. destruct Hinv as [_ (k & Hk & _)].
  exists best. split; [by eapply list_elem_of_lookup_2|done].
Qed.

Section VerseListLabel.
Variable StringToNumber : list Z → number.
Variable NumberToString : number → list Z.



End VerseListLabel.

(** ** Substrings and tables *)

Lemma starts_with_prefix (s key : str) :
  starts_with s key = true ↔ ∃ b, s = key ++ b.
Proof.
  revert s. induction key as [|k key IH]; intros s; cbn.
  - split; [by exists s|]. by destruct s.
  - destruct s as [|c s].
    + split; [done|]. by intros [b ?].
    + cbn [starts_with]. rewrite andb_true_iff, Z.eqb_eq, IH. split.
      * intros [-> [b ->]]. by exists b.
      * intros [b [= -> ->]]. split; [done|by exists b].
Qed.

Lemma includes_substring (s key : str) :
  includes s key = true ↔ substring key s.
Proof.
  unfold substring. induction s as [|c s IH].
  - cbn [includes]. rewrite orb_false_r, starts_with_prefix. split.
    + intros [b ->]. by exists [], b.
    + intros (a & b & Heq). symmetry in Heq.
      apply app_eq_nil in Heq as [-> Heq]. by exists b.
  - cbn [includes]. rewrite orb_true_iff, starts_with_prefix, IH. split.
    + intros [[b ->]|(a & b & ->)]; [by exists [], b|by exists (c :: a), b].
    + intros ([|x a] & b & Heq).
      * left. by exists b.
      * right. injection Heq as -> ->. by exists a, b.
Qed.

Lemma first_entry_Some (test : list Z → bool) (g : nat → Z)
    (keys : list (list Z)) (v : Z) :
  first_entry test (imap (λ i k, (k, g i)) keys) = Some v
  ↔ ∃ i, v = g i ∧ first_match (λ k, test k = true) keys i.
Proof.
  unfold first_match. revert g.
  induction keys as [|k keys IH]; intros g.
  - cbn. split; [done|]. by intros (i & _ & (? & ? & _) & _).
  - rewrite imap_cons. cbn [first_entry]. destruct (test k) eqn:Hk.
    + split.
      * intros [= <-]. exists 0%nat. split; [done|].
        split; [by exists k|]. intros j k' Hj. lia.
      * intros (i & -> & (k' & Hi & Hk') & Hfirst).
        destruct i as [|i]; [done|].
        destruct (Hfirst 0%nat k ltac:(lia) eq_refl). done.
    + rewrite (IH (g ∘ S)). split.
      * intros (i & -> & (k' & Hi & Hk') & Hfirst). exists (S i).
        split; [done|]. split; [by exists k'|].
        intros [|j] k'' Hj Hk''; [|apply (Hfirst j); [lia|done]].
        injection Hk'' as <-. by rewrite Hk.
      * intros (i & -> & (k' & Hi & Hk') & Hfirst).
        destruct i as [|i]; [injection Hi as ->; congruence|].
        exists i. split; [done|]. split; [by exists k'|].
        intros j k'' Hj Hk''. apply (Hfirst (S j)); [lia|done].
Qed.

Lemma first_entry_None (test : list Z → bool) (g : nat → Z)
    (keys : list (list Z)) :
  first_entry test (imap (λ i k, (k, g i)) keys) = None
  ↔ ∀ k, k ∈ keys → test k = false.
Proof.
  revert g. induction keys as [|k keys IH]; intros g.
  - cbn. split; [|done]. by intros _ k ?%elem_of_nil.
  - rewrite imap_cons. cbn [first_entry]. destruct (test k) eqn:Hk.
    + split; [done|]. intros Hall. rewrite Hall in Hk; [done|by left].
    + rewrite (IH (g ∘ S)). split.
      * intros Hall k' [->|?]%elem_of_cons; [done|by apply Hall].
      * intros Hall k' Hk'. apply Hall. by right.
Qed.

Lemma Map_get_first_entry (m : list (list Z * Z)) (key : str) :
  Map_get m key = first_entry (λ k, bool_decide (k = key)) m.
Proof.
  induction m as [|[k v] m IH]; [done|]. cbn.
  case_decide; [by rewrite bool_decide_true|by rewrite bool_decide_false].
Qed.

Lemma ARABIC_NORM_TO_NUM_keys :
  ARABIC_NORM_TO_NUM = imap (λ i k, (k, Z.of_nat i + 1)) arabic_keys.
Proof. by vm_compute. Qed.

Lemma englishToNum_keys :
  englishToNum = imap (λ i k, (k, Z.of_nat i + 1)) english_keys.
Proof. by vm_compute. Qed.

Lemma arabic_keys_NoDup : NoDup arabic_keys.
Proof. refine (bool_decide_unpack _ _). by vm_compute. Qed.

Lemma english_keys_NoDup : NoDup english_keys.
Proof. refine (bool_decide_unpack _ _). by vm_compute. Qed.

Lemma truthy_num_Some (n : Z) : n ≠ 0 → truthy_num (Some n) = true.
Proof. intros Hn. unfold truthy_num. by rewrite (proj2 (Z.eqb_neq _ _)). Qed.

(** From here on the tables are used through the facts above only. *)
Opaque ARABIC_NORM_TO_NUM englishToNum arabic_keys english_keys
  SURAH_ARABIC_LIST englishToNum_entries.

Lemma first_match_exact (keys : list (list Z)) (key : str) (i : nat) :
  NoDup keys → keys !! i = Some key →
  first_match (λ k, bool_decide (k = key) = true) keys i.
Proof.
  intros Hnd Hi. split; [exists key; by rewrite bool_decide_true|].
  intros j k Hj Hk Heq%bool_decide_eq_true. subst k.
  pose proof (NoDup_lookup _ _ _ _ Hnd Hi Hk). lia.
Qed.

Lemma first_match_unique (P : list Z → Prop) (keys : list (list Z)) (i j : nat) :
  first_match P keys i → first_match P keys j → i = j.
Proof.
  intros [(k & Hi & Hk) Hfi] [(k' & Hj & Hk') Hfj].
  destruct (Nat.lt_trichotomy i j) as [Hlt|[->|Hlt]]; [|done|].
  - by destruct (Hfj i k Hlt Hi).
  - by destruct (Hfi j k' Hlt Hj).
Qed.

Lemma first_match_ext (P Q : list Z → Prop) (keys : list (list Z)) (i : nat) :
  (∀ k, P k ↔ Q k) → first_match P keys i → first_match Q keys i.
Proof.
  intros HPQ [(k & Hi & Hk) Hfirst]. split.
  - exists k. by rewrite <- HPQ.
  - intros j k' Hj Hk'. rewrite <- HPQ. by eapply Hfirst.
Qed.

Lemma substring_refl (s : str) : substring s s.
Proof. exists [], []. by rewrite app_nil_r. Qed.

(** ** The Arabic half of the resolver *)

Lemma Map_get_arabic_exact (norm : str) (i : nat) :
  arabic_keys !! i = Some norm →
  Map_get ARABIC_NORM_TO_NUM norm = Some (Z.of_nat i + 1).
Proof.
  intros Hi. rewrite Map_get_first_entry, ARABIC_NORM_TO_NUM_keys.
  apply first_entry_Some. exists i. split; [done|].
  by apply first_match_exact; [apply arabic_keys_NoDup|].
Qed.

Lemma Map_get_arabic_miss (norm : str) :
  norm ∉ arabic_keys → Map_get ARABIC_NORM_TO_NUM norm = None.
Proof.
  intros Hnot. rewrite Map_get_first_entry, ARABIC_NORM_TO_NUM_keys.
  apply first_entry_None. intros k Hk. apply bool_decide_eq_false.
  by intros ->.
Qed.

Lemma arabic_number_exact (norm : str) (i : nat) :
  arabic_keys !! i = Some norm → arabic_number norm = Some (Z.of_nat i + 1).
Proof.
  intros Hi. unfold arabic_number. rewrite (Map_get_arabic_exact norm i Hi).
  by rewrite truthy_num_Some by lia.
Qed.

Lemma arabic_number_scan (norm : str) (i : nat) :
  norm ∉ arabic_keys →
  first_match (λ k, substring k norm) arabic_keys i →
  arabic_number norm = Some (Z.of_nat i + 1).
Proof.
  intros Hnot Hfirst. unfold arabic_number.
  rewrite (Map_get_arabic_miss norm Hnot). cbn [truthy_num].
  assert (first_entry (λ key, includes norm key) ARABIC_NORM_TO_NUM
          = Some (Z.of_nat i + 1)) as ->; [|done].
  rewrite ARABIC_NORM_TO_NUM_keys. apply first_entry_Some.
  exists i. split; [done|].
  eapply first_match_ext; [|exact Hfirst].
  intros k. by rewrite includes_substring.
Qed.

Lemma arabic_number_none (norm : str) :
  (∀ k, k ∈ arabic_keys → ¬ substring k norm) → arabic_number norm = None.
Proof.
  intros Hnone. unfold arabic_number.
  rewrite Map_get_arabic_miss.
  2:{ intros Hin. apply (Hnone norm Hin), substring_refl. }
  cbn [truthy_num].
  assert (first_entry (λ key, includes norm key) ARABIC_NORM_TO_NUM = None)
    as ->; [|done].
  rewrite ARABIC_NORM_TO_NUM_keys. apply first_entry_None.
  intros k Hk. apply not_true_iff_false. rewrite includes_substring.
  by apply Hnone.
Qed.

(** Every name of the table, alone or behind the word for chapter, is
    found by the Arabic half. *)
Lemma arabic_names_found :
  Forall (λ e : nat * list Z,
            e.2 ≠ []
            ∧ arabic_number (normalizeSurahNameForMatch (trim e.2))
              = Some (Z.of_nat e.1 + 1)
            ∧ arabic_number
                (normalizeSurahNameForMatch (trim (js "سورة " ++ e.2)))
              = Some (Z.of_nat e.1 + 1))
    (imap pair SURAH_ARABIC_LIST).
Proof. refine (bool_decide_unpack _ _). by vm_compute. Qed.

Section ResolverProperties.
Variable toLowerCase : list Z → list Z.

Lemma resolve_surah_string (name : str) :
  resolve_surah toLowerCase (VStr name)
  = Some (mapSurahNameToNumber toLowerCase name).
Proof. unfold resolve_surah. cbn [truthy]. by destruct name. Qed.

Lemma mapSurahNameToNumber_arabic (surahName : str) (n : Z) :
  surahName ≠ [] → n ≠ 0 →
  arabic_number (normalizeSurahNameForMatch (trim surahName)) = Some n →
  mapSurahNameToNumber toLowerCase surahName = n.
Proof.
  intros Hne Hn Hnum. unfold mapSurahNameToNumber.
  destruct surahName as [|c r]; [by destruct Hne|].
  cbn [truthy_str negb]. cbv zeta.
  rewrite Hnum. by rewrite truthy_num_Some.
Qed.

Lemma mapSurahNameToNumber_english (surahName : str) :
  surahName ≠ [] →
  arabic_number (normalizeSurahNameForMatch (trim surahName)) = None →
  mapSurahNameToNumber toLowerCase surahName
  = let en := trim surahName in
    if truthy_num (Map_get englishToNum en)
    then default 0 (Map_get englishToNum en)
    else
      match first_entry (λ k, includes (toLowerCase en) (toLowerCase k))
              englishToNum with
      | Some v => v
      | None => 0
      end.
Proof.
  intros Hne Hnum. unfold mapSurahNameToNumber.
  destruct surahName as [|c r]; [by destruct Hne|].
  cbn [truthy_str negb]. cbv zeta.
  by rewrite Hnum.
Qed.

Lemma Map_get_english_exact (en : str) (j : nat) :
  english_keys !! j = Some en →
  Map_get englishToNum en = Some (Z.of_nat j + 1).
Proof.
  intros Hj. rewrite Map_get_first_entry, englishToNum_keys.
  apply first_entry_Some. exists j. split; [done|].
  by apply first_match_exact; [apply english_keys_NoDup|].
Qed.

Lemma Map_get_english_miss (en : str) :
  en ∉ english_keys → Map_get englishToNum en = None.
Proof.
  intros Hnot. rewrite Map_get_first_entry, englishToNum_keys.
  apply first_entry_None. intros k Hk. apply bool_decide_eq_false.
  by intros ->.
Qed.

(** C4, as amended.  [mapSurahNameToNumber] returns a number for every
    string and throws on a value that is neither falsy nor a string,
    which it gets when a reply sets [surah] to a number, [true], an
    array or an object; a falsy value gives 0.  On a string it gives 0
    for the empty one, and otherwise tries in this order: the
    exact lookup of the normalized name, without the leading word for
    chapter, among the normalized Arabic names; the first Arabic name, in
    table order, that the normalized name includes; the exact lookup of
    the trimmed name, letter case included, among the English names; the
    first English name, in table order, that the trimmed name includes
    when case is ignored; and 0 when none applies.  Every Arabic name of
    the table resolves to its ordinal, alone or behind the word for
    chapter; the name of ordinal 1 resolves to 1. *)
Theorem mapSurahNameToNumber_strategies (surahName : str) :
  let norm := normalizeSurahNameForMatch (trim surahName) in
  let en := trim surahName in
  let no_arabic := ∀ k, k ∈ arabic_keys → ¬ substring k norm in
  (surahName = [] → mapSurahNameToNumber toLowerCase surahName = 0)
  ∧ (surahName ≠ [] →
     (∀ i, arabic_keys !! i = Some norm →
        mapSurahNameToNumber toLowerCase surahName = Z.of_nat i + 1)
     ∧ (norm ∉ arabic_keys →
        ∀ i, first_match (λ k, substring k norm) arabic_keys i →
          mapSurahNameToNumber toLowerCase surahName = Z.of_nat i + 1)
     ∧ (no_arabic →
        ∀ j, english_keys !! j = Some en →
          mapSurahNameToNumber toLowerCase surahName = Z.of_nat j + 1)
     ∧ (no_arabic → en ∉ english_keys →
        ∀ j, first_match
               (λ k, substring (toLowerCase k) (toLowerCase en))
               english_keys j →
          mapSurahNameToNumber toLowerCase surahName = Z.of_nat j + 1)
     ∧ (no_arabic →
        (∀ k, k ∈ english_keys →
           ¬ substring (toLowerCase k) (toLowerCase en)) →
        mapSurahNameToNumber toLowerCase surahName = 0))
  ∧ (∀ i name,
       SURAH_ARABIC_LIST !! i = Some name →
       mapSurahNameToNumber toLowerCase name = Z.of_nat i + 1
       ∧ mapSurahNameToNumber toLowerCase (js "سورة " ++ name) = Z.of_nat i + 1)
  ∧ mapSurahNameToNumber toLowerCase (js "الفاتحة") = 1
  ∧ (∀ name,
       resolve_surah toLowerCase (VStr name)
       = Some (mapSurahNameToNumber toLowerCase name))
  ∧ (∀ v, truthy v = false → resolve_surah toLowerCase v = Some 0)
  ∧ (∀ v, truthy v = true → (∀ name, v ≠ VStr name) →
       resolve_surah toLowerCase v = None).
Proof.
  intros norm en no_arabic.
  assert ((∀ name,
             resolve_surah toLowerCase (VStr name)
             = Some (mapSurahNameToNumber toLowerCase name))
          ∧ (∀ v, truthy v = false → resolve_surah toLowerCase v = Some 0)
          ∧ (∀ v, truthy v = true → (∀ name, v ≠ VStr name) →
               resolve_surah toLowerCase v = None)) as Hvalues.
  { split; [|split].
    - intros name. apply resolve_surah_string.
    - intros v Hv. unfold resolve_surah. by rewrite Hv.
    - intros v Hv Hnot. unfold resolve_surah. rewrite Hv. cbn [negb].
      destruct v; try done. by edestruct Hnot. }
  assert (∀ i name,
            SURAH_ARABIC_LIST !! i = Some name →
            mapSurahNameToNumber toLowerCase name = Z.of_nat i + 1
            ∧ mapSurahNameToNumber toLowerCase (js "سورة " ++ name) = Z.of_nat i + 1)
    as Hnames.
  { intros i name Hi.
    pose proof arabic_names_found as Hall. rewrite Forall_forall in Hall.
    destruct (Hall (i, name)) as (Hne & H1 & H2).
    { apply list_elem_of_lookup. exists i.
      by rewrite list_lookup_imap, Hi. }
    cbn [fst snd] in *.
    split; apply mapSurahNameToNumber_arabic;
      [exact Hne|lia|exact H1| |lia|exact H2].
    intros [Hnil _]%app_eq_nil. vm_compute in Hnil. discriminate Hnil. }
  split; [intros ->; reflexivity|].
  split; [|split; [exact Hnames|split; [|exact Hvalues]]].
  2:{ destruct (Hnames 0%nat (js "الفاتحة")) as [Hfirst _];
        [vm_compute; reflexivity|].
      change (Z.of_nat 0 + 1) with 1 in Hfirst. exact Hfirst. }
  intros Hne. split_and!.
  - intros i Hi. apply mapSurahNameToNumber_arabic; [done|lia|].
    by apply arabic_number_exact.
  - intros Hnot i Hi. apply mapSurahNameToNumber_arabic; [done|lia|].
    by apply arabic_number_scan.
  - intros Hnone j Hj.
    rewrite mapSurahNameToNumber_english by (by try apply arabic_number_none).
    cbv zeta. fold en. rewrite (Map_get_english_exact en j Hj).
    by rewrite truthy_num_Some by lia.
  - intros Hnone Hnot j Hj.
    rewrite mapSurahNameToNumber_english by (by try apply arabic_number_none).
    cbv zeta. fold en. rewrite (Map_get_english_miss en Hnot).
    cbn [truthy_num].
    assert (first_entry (λ k, includes (toLowerCase en) (toLowerCase k))
              englishToNum = Some (Z.of_nat j + 1)) as ->; [|done].
    rewrite englishToNum_keys. apply first_entry_Some.
    exists j. split; [done|].
    eapply first_match_ext; [|exact Hj].
    intros k. by rewrite includes_substring.
  - intros Hnone Hno_english.
    rewrite mapSurahNameToNumber_english by (by try apply arabic_number_none).
    cbv zeta. fold en. rewrite Map_get_english_miss.
    2:{ intros Hin. apply (Hno_english en Hin), substring_refl. }
    cbn [truthy_num].
    assert (first_entry (λ k, includes (toLowerCase en) (toLowerCase k))
              englishToNum = None) as ->; [|done].
    rewrite englishToNum_keys. apply first_entry_None.
    intros k Hk. apply not_true_iff_false. rewrite includes_substring.
    by apply Hno_english.
Qed.

End ResolverProperties.

Lemma mapSurahNameToNumber_strategies_witness :
  js "سورة البقرة" ≠ []
  ∧ arabic_keys !! 1%nat
    = Some (normalizeSurahNameForMatch (trim (js "سورة البقرة")))
  ∧ mapSurahNameToNumber ascii_toLowerCase (js "سورة البقرة") = 2.
Proof.
  assert (js "سورة البقرة" ≠ []) as Hne by (vm_compute; discriminate).
  assert (arabic_keys !! 1%nat
          = Some (normalizeSurahNameForMatch (trim (js "سورة البقرة"))))
    as Hkey by (vm_compute; reflexivity).
  split; [exact Hne|]. split; [exact Hkey|].
  exact (proj1 (proj1 (proj2 (mapSurahNameToNumber_strategies
                                ascii_toLowerCase (js "سورة البقرة"))) Hne)
           1%nat Hkey).
Defined.

(** The trimmed name ["al-masad"] is the English name of ordinal 111 up
    to letter case.  The exact lookup misses it, and the scan that
    ignores case stops at the name of ordinal 38, which it includes; an
    exact match that ignored case would give 111, as the name in its
    table spelling does.  And the resolver is not total: the reply
    [{"surah": 2}] gives a result whose [surah] is the number 2, on
    which the resolver throws, and [toResults] with it. *)
Lemma mapSurahNameToNumber_keeps_case_and_throws :
  (mapSurahNameToNumber ascii_toLowerCase (js "al-masad") = 38
   ∧ resolve_as_specified ascii_toLowerCase (js "al-masad") = 111
   ∧ mapSurahNameToNumber ascii_toLowerCase (js "Al-Masad") = 111)
  ∧ (let parsed := VObj [(js "surah", VNum (number_of_Z 2))] in
     ∃ r,
       identifySurahFromTranscript decimal_StringToNumber
         decimal_NumberToString [] (Some parsed) = Returns (Some r)
       ∧ Result.surah r = VNum (number_of_Z 2)
       ∧ resolve_surah ascii_toLowerCase (Result.surah r) = None
       ∧ toResults ascii_toLowerCase decimal_NumberToString r = None).
Proof.
  split; [by vm_compute|]. intros parsed.
  destruct (identifySurahFromTranscript decimal_StringToNumber
              decimal_NumberToString [] (Some parsed)) as [[r|]|] eqn:Hr;
    [|vm_compute in Hr; discriminate Hr..].
  exists r. split; [reflexivity|].
  vm_compute in Hr. injection Hr as <-. by vm_compute.
Qed.

(** ** Examples on a small corpus *)

(** A corpus of one verse in two chapters, the second of them empty:
    one candidate, where [2N - C] is 0. *)
Lemma buildCandidates_empty_chapter :
  let corpus :=
    {| Corpus.surahs :=
         [ {| Surah.englishName := js "Al-Faatiha";
              Surah.nameArabic := js "الفاتحة";
              Surah.ayahs := [Ayah.mk (js "بسم الله الرحمن الرحيم")] |};
           {| Surah.englishName := js "Al-Baqara";
              Surah.nameArabic := js "البقرة";
              Surah.ayahs := [] |} ] |} in
  total_verses corpus = 1
  ∧ total_chapters corpus = 2
  ∧ Z.of_nat (length (buildCandidates corpus)) = 1
  ∧ Z.of_nat (length (buildCandidates corpus))
    ≠ 2 * total_verses corpus - total_chapters corpus.
Proof. by vm_compute. Qed.

Lemma buildCandidates_count_and_order_witness :
  Forall (λ s, Surah.ayahs s ≠ []) (Corpus.surahs example_corpus)
  ∧ Z.of_nat (length (buildCandidates example_corpus))
    = 2 * total_verses example_corpus - total_chapters example_corpus.
Proof.
  assert (Forall (λ s, Surah.ayahs s ≠ []) (Corpus.surahs example_corpus))
    as Hne by (repeat constructor; discriminate).
  split; [exact Hne|].
  exact (proj1 (proj2 (buildCandidates_count_and_order example_corpus)) Hne).
Defined.

Lemma identifyByCorpus_first_write_wins_witness :
  let tSet := toTrigrams (normalizeArabic example_transcript) in
  let candidates := buildCandidates example_corpus in
  identifyByCorpus (Some example_corpus) example_transcript
  = Some (match_result (single_candidate 0 (Surah.mk (js "Al-Faatiha")
            (js "سُورَةُ ٱلْفَاتِحَةِ")
            [ Ayah.mk (js "بِسْمِ ٱللَّهِ ٱلرَّحْمَٰنِ ٱلرَّحِيمِ");
              Ayah.mk (js "ٱلْحَمْدُ لِلَّهِ رَبِّ ٱلْعَٰلَمِينَ") ]) 0))
  ∧ map (score_of tSet) candidates = [16 # 16; 16 # 32; 3 # 31; 16 # 16]%Q
  ∧ ∃ k best,
      first_best tSet candidates k best
      ∧ match_result (single_candidate 0 (Surah.mk (js "Al-Faatiha")
            (js "سُورَةُ ٱلْفَاتِحَةِ")
            [ Ayah.mk (js "بِسْمِ ٱللَّهِ ٱلرَّحْمَٰنِ ٱلرَّحِيمِ");
              Ayah.mk (js "ٱلْحَمْدُ لِلَّهِ رَبِّ ٱلْعَٰلَمِينَ") ]) 0)
        = match_result best.
Proof.
  intros tSet candidates.
  set (r := match_result _).
  assert (identifyByCorpus (Some example_corpus) example_transcript = Some r)
    as Hr by (vm_compute; reflexivity).
  split; [exact Hr|]. split; [vm_compute; reflexivity|].
  exact (proj2 (proj2 (proj2 (identifyByCorpus_first_write_wins
                                example_corpus example_transcript))) r Hr).
Defined.

Lemma identifyByCorpus_threshold_witness :
  ∃ r, identifyByCorpus (Some example_corpus) example_transcript = Some r
       ∧ ∃ c best,
           Some example_corpus = Some c
           ∧ best ∈ buildCandidates c
           ∧ (12 # 100
              <= score_of (toTrigrams (normalizeArabic example_transcript)) best
              <= 1)%Q
           ∧ Result.surah r = VStr (Candidate.surah best)
           ∧ Result.arabic r = VStr (Candidate.text best)
           ∧ Result.translation r = VStr (js "—")
           ∧ Result.ayah r = Candidate.ayah best
           ∧ Result.ayahStart r = Candidate.ayahStart best
           ∧ Result.ayahEnd r = Candidate.ayahEnd best
           ∧ Result.ayahs r = None.
Proof.
  destruct (identifyByCorpus (Some example_corpus) example_transcript)
    as [r|] eqn:Hr; [|vm_compute in Hr; discriminate Hr].
  exists r. split; [reflexivity|].
  exact (proj2 (proj2 (proj2 (identifyByCorpus_threshold
                                (Some example_corpus) example_transcript)))
           r Hr).
Defined.

Lemma normalizeArabic_shape_witness :
  Forall (λ c, ¬ is_arabic c) (js "bismillah")
  ∧ normalizeArabic (js "bismillah") = []
  ∧ ∀ corpus, identifyByCorpus corpus (js "bismillah") = None.
Proof.
  assert (Forall (λ c, ¬ is_arabic c) (js "bismillah")) as Hlatin
    by (refine (bool_decide_unpack _ _); vm_compute; exact I).
  split; [exact Hlatin|].
  exact (proj2 (proj2 (proj2 (proj2 (normalizeArabic_shape (js "bismillah")))))
           Hlatin).
Defined.


(* ===================================================================== *)
(** * Further properties *)
(* ===================================================================== *)

(** ** Trigrams *)

Lemma slice_take_drop (s : str) (i : nat) :
  slice s i (i + 3) = take 3 (drop i s).
Proof. unfold slice. by replace (i + 3 - i)%nat with 3%nat by lia. Qed.

(** X1. The trigram set of a string holds exactly its runs of three
    consecutive code units: a string is a member if and only if it has
    length 3 and occurs in [s]. *)
Theorem toTrigrams_members (s x : str) :
  x ∈ toTrigrams s ↔ length x = 3%nat ∧ substring x s.
Proof.
  unfold toTrigrams, substring. rewrite new_Set_elem, list_elem_of_fmap.
  split.
  - intros (i & -> & Hi%elem_of_seq). rewrite slice_take_drop.
    assert (i + 3 ≤ length s)%nat as Hlen by lia.
    split; [rewrite length_take, length_drop; lia|].
    exists (take i s), (drop 3 (drop i s)).
    by rewrite take_drop, take_drop.
  - intros (Hx & a & b & ->). exists (length a). split.
    + rewrite slice_take_drop, drop_app_length.
      rewrite take_app_length'; done.
    + apply elem_of_seq. rewrite !length_app. lia.
Qed.

(** ** Scores *)

Lemma Zquot_zero (i u : Z) :
  0 < u → (inject_Z i / inject_Z u == 0)%Q ↔ i = 0.
Proof.
  intros Hu. destruct u as [|p|p]; try lia.
  unfold Qeq, Qdiv, Qmult, Qinv, inject_Z. cbn. lia.
Qed.

(** X2. Two sets score 0 exactly when they share no trigram, and any
    shared trigram gives a score above 0. *)
Theorem jaccard_zero_iff_disjoint (aSet bSet : StringSet) :
  NoDup aSet → NoDup bSet →
  ((jaccard aSet bSet == 0)%Q ↔ ∀ x, x ∈ aSet → x ∉ bSet)
  ∧ (∀ x, x ∈ aSet → x ∈ bSet → (0 < jaccard aSet bSet)%Q).
Proof.
  intros Ha Hb.
  assert ((jaccard aSet bSet == 0)%Q ↔ ∀ x, x ∈ aSet → x ∉ bSet) as Hzero.
  { rewrite (jaccard_members aSet bSet Ha Hb). cbv zeta.
    rewrite Zquot_zero by (case_match; lia).
    rewrite <- Nat2Z.inj_0, Nat2Z.inj_iff, size_empty_iff.
    unfold members. split.
    - intros Hempty x Hxa Hxb. apply (not_elem_of_empty (C:=gset (list Z)) x).
      apply Hempty. by rewrite elem_of_intersection, !elem_of_list_to_set.
    - intros Hdisj. apply elem_of_equiv_empty. intros x.
      rewrite elem_of_intersection, !elem_of_list_to_set.
      intros [Hxa Hxb]. by destruct (Hdisj x Hxa). }
  split; [exact Hzero|].
  intros x Hxa Hxb.
  destruct (jaccard_bounds aSet bSet Ha Hb) as [Hlow _].
  apply Qle_lt_or_eq in Hlow as [Hpos|Heq]; [done|].
  symmetry in Heq. pose proof (proj1 Hzero Heq x Hxa) as Hnot. by destruct Hnot.
Qed.

Lemma jaccard_zero_iff_disjoint_witness :
  NoDup (toTrigrams (js "abcd")) ∧ NoDup (toTrigrams (js "wxyz"))
  ∧ (jaccard (toTrigrams (js "abcd")) (toTrigrams (js "wxyz")) == 0)%Q.
Proof.
  assert (NoDup (toTrigrams (js "abcd"))) as Ha
    by (refine (bool_decide_unpack _ _); vm_compute; exact I).
  assert (NoDup (toTrigrams (js "wxyz"))) as Hb
    by (refine (bool_decide_unpack _ _); vm_compute; exact I).
  split; [exact Ha|]. split; [exact Hb|].
  apply (proj1 (jaccard_zero_iff_disjoint _ _ Ha Hb)).
  apply Forall_forall. refine (bool_decide_unpack _ _). vm_compute. exact I.
Defined.

(** ** What the normalizer ignores *)

Lemma fold_letters_remove_harakat (s : str) :
  fold_letters (remove_all is_harakat s) = fold_letters s.
Proof.
  rewrite !fold_letters_unitwise. unfold remove_all.
  f_equal. f_equal. rewrite list_filter_filter.
  apply list_filter_iff. tauto.
Qed.

Lemma fold_letters_remove_mark (s : str) :
  fold_letters (remove_all is_mark s) = fold_letters s.
Proof.
  rewrite !fold_letters_unitwise. unfold remove_all.
  f_equal. rewrite !list_filter_filter.
  apply list_filter_iff. tauto.
Qed.

(** Replacing a letter by one that folds to the same unit. *)
Lemma fold_letters_fmap (g : Z → Z) (s : str) :
  (∀ c, (is_harakat (g c) ↔ is_harakat c) ∧ (is_mark (g c) ↔ is_mark c)
        ∧ fold_unit (g c) = fold_unit c) →
  fold_letters (g <$> s) = fold_letters s.
Proof.
  intros Hg. rewrite !fold_letters_unitwise.
  induction s as [|c s IH]; [done|].
  destruct (Hg c) as (Hh & Hm & Hf).
  rewrite fmap_cons, !(filter_cons _ (g c)), !(filter_cons _ c).
  repeat case_decide; try tauto; rewrite ?filter_cons; repeat case_decide;
    try tauto; rewrite ?fmap_cons, ?IH, ?Hf; done.
Qed.

Lemma normalizeArabic_fold_letters (s t : str) :
  fold_letters s = fold_letters t → normalizeArabic s = normalizeArabic t.
Proof.
  intros Heq. unfold normalizeArabic.
  destruct s as [|x s], t as [|y t]; [done| | |by rewrite Heq].
  - by rewrite <- Heq.
  - by rewrite Heq.
Qed.

Lemma fold_unit_alif (c : Z) :
  let d := if is_alif_variant c then ALIF else c in
  (is_harakat d ↔ is_harakat c) ∧ (is_mark d ↔ is_mark c)
  ∧ fold_unit d = fold_unit c.
Proof.
  cbv zeta. destruct (is_alif_variant c) eqn:Hc; [|done].
  split_and!; [class_arith|class_arith|].
  unfold fold_unit. rewrite Hc. done.
Qed.

Lemma fold_unit_ya (c : Z) :
  let d := if is_alif_maqsura c then YA else c in
  (is_harakat d ↔ is_harakat c) ∧ (is_mark d ↔ is_mark c)
  ∧ fold_unit d = fold_unit c.
Proof.
  cbv zeta. destruct (is_alif_maqsura c) eqn:Hc; [|done].
  assert (c = 0x0649) as -> by class_arith. done.
Qed.

Lemma fold_unit_ha (c : Z) :
  let d := if is_ta_marbuta c then HA else c in
  (is_harakat d ↔ is_harakat c) ∧ (is_mark d ↔ is_mark c)
  ∧ fold_unit d = fold_unit c.
Proof.
  cbv zeta. destruct (is_ta_marbuta c) eqn:Hc; [|done].
  assert (c = 0x0629) as -> by class_arith. done.
Qed.

(** X3. The normalizer gives the same string whether or not the input
    carries vowel marks and signs, and whichever variant of alif, ya and
    ha it is written with: each replacement of [normalizeArabic], done
    beforehand, leaves the result unchanged. *)
Theorem normalizeArabic_ignores_marks_and_variants (s : str) :
  normalizeArabic (remove_all is_harakat s) = normalizeArabic s
  ∧ normalizeArabic (remove_all is_mark s) = normalizeArabic s
  ∧ normalizeArabic (replace_all is_alif_variant ALIF s) = normalizeArabic s
  ∧ normalizeArabic (replace_all is_alif_maqsura YA s) = normalizeArabic s
  ∧ normalizeArabic (replace_all is_ta_marbuta HA s) = normalizeArabic s.
Proof.
  split_and!; apply normalizeArabic_fold_letters.
  - apply fold_letters_remove_harakat.
  - apply fold_letters_remove_mark.
  - apply fold_letters_fmap, fold_unit_alif.
  - apply fold_letters_fmap, fold_unit_ya.
  - apply fold_letters_fmap, fold_unit_ha.
Qed.

(** ** The matcher and the normalizer *)

(** X4. The local matcher reads the transcript through the normalizer
    only: a transcript and its normalized form give the same answer, and
    so do a transcript with vowel marks and the same one without. *)
Theorem identifyByCorpus_reads_normalized (corpus : option Corpus.t)
    (transcript : str) :
  identifyByCorpus corpus (normalizeArabic transcript)
  = identifyByCorpus corpus transcript
  ∧ identifyByCorpus corpus (remove_all is_harakat transcript)
    = identifyByCorpus corpus transcript.
Proof.
  unfold identifyByCorpus. destruct corpus as [c|]; [|done].
  rewrite (normalizeArabic_fixes_normalized (normalizeArabic transcript))
    by apply normalizeArabic_normalized.
  rewrite (normalizeArabic_fold_letters _ _
             (fold_letters_remove_harakat transcript)).
  done.
Qed.

(** X5. Reciting a candidate's own text always gives a match: when the
    normalized text of a candidate of the corpus has at least 3 code
    units, [identifyByCorpus] on that text returns a result; it is built
    from a candidate that scores 1 and whose normalized text has the
    same trigrams. *)
Theorem identifyByCorpus_finds_verbatim_text (corpus : Corpus.t)
    (c : Candidate.t) :
  c ∈ buildCandidates corpus →
  (3 ≤ length (normalizeArabic (Candidate.text c)))%nat →
  let tSet := toTrigrams (normalizeArabic (Candidate.text c)) in
  ∃ best,
    identifyByCorpus (Some corpus) (Candidate.text c)
    = Some (match_result best)
    ∧ best ∈ buildCandidates corpus
    ∧ (score_of tSet best == 1)%Q
    ∧ members (toTrigrams (normalizeArabic (Candidate.text best)))
      = members tSet.
Proof.
  intros Hc Hlen tSet.
  assert (scored c) as Hscored.
  { unfold scored. intros Hnil. rewrite Hnil in Hlen. cbn in Hlen. lia. }
  assert (score_of tSet c == 1)%Q as Hself.
  { apply jaccard_self; [apply toTrigrams_NoDup|by apply toTrigrams_long]. }
  pose proof (best_candidate_invariant tSet (buildCandidates corpus)) as Hinv.
  unfold identifyByCorpus.
  rewrite (proj2 (truthy_str_nonempty _) Hscored). fold tSet.
  destruct (best_candidate tSet (buildCandidates corpus)) as [[best score]|].
  2:{ by destruct (Hinv c Hc). }
  destruct Hinv as [-> (k & Hk & Hbest & Hall)].
  apply list_elem_of_lookup in Hc as [j Hj].
  destruct (Hall j c Hj Hscored) as [Hle _].
  assert (score_of tSet best == 1)%Q as Hone.
  { apply Qle_antisym.
    - apply score_of_bounds, toTrigrams_NoDup.
    - by rewrite <- Hself. }
  exists best. split_and!.
  - assert (Qle_bool THRESHOLD (score_of tSet best) = true) as ->; [|done].
    apply Qle_bool_iff. rewrite Hone. done.
  - by eapply list_elem_of_lookup_2.
  - exact Hone.
  - symmetry.
    apply (jaccard_one_only_equal tSet _ (toTrigrams_NoDup _)
             (toTrigrams_NoDup _) Hone).
Qed.

Lemma identifyByCorpus_finds_verbatim_text_witness :
  let c := {| Candidate.surah := js "سُورَةُ ٱلْفَاتِحَةِ";
              Candidate.ayah := Some (number_of_nat 1);
              Candidate.ayahStart := None;
              Candidate.ayahEnd := None;
              Candidate.text := js "بِسْمِ ٱللَّهِ ٱلرَّحْمَٰنِ ٱلرَّحِيمِ" |} in
  c ∈ buildCandidates example_corpus
  ∧ (3 ≤ length (normalizeArabic (Candidate.text c)))%nat
  ∧ ∃ best,
      identifyByCorpus (Some example_corpus) (Candidate.text c)
      = Some (match_result best)
      ∧ best ∈ buildCandidates example_corpus
      ∧ (score_of (toTrigrams (normalizeArabic (Candidate.text c))) best
         == 1)%Q
      ∧ members (toTrigrams (normalizeArabic (Candidate.text best)))
        = members (toTrigrams (normalizeArabic (Candidate.text c))).
Proof.
  intros c.
  assert (c ∈ buildCandidates example_corpus) as Hc.
  { apply (list_elem_of_lookup_2 _ 0%nat). vm_compute. reflexivity. }
  assert (3 ≤ length (normalizeArabic (Candidate.text c)))%nat as Hlen
    by (vm_compute; lia).
  split; [exact Hc|]. split; [exact Hlen|].
  exact (identifyByCorpus_finds_verbatim_text example_corpus c Hc Hlen).
Defined.

(** ** The range of the resolver *)

Lemma first_entry_range (test : list Z → bool) (keys : list (list Z)) (v : Z) :
  first_entry test (imap (λ i k, (k, Z.of_nat i + 1)) keys) = Some v →
  1 ≤ v ≤ Z.of_nat (length keys).
Proof.
  intros (i & -> & (k & Hi & _) & _)%first_entry_Some.
  apply lookup_lt_Some in Hi. lia.
Qed.

Lemma arabic_keys_length : length arabic_keys = 114%nat.
Proof. by vm_compute. Qed.

Lemma english_keys_length : length english_keys = 114%nat.
Proof. by vm_compute. Qed.

Lemma arabic_number_range (norm : str) (v : Z) :
  arabic_number norm = Some v → 1 ≤ v ≤ 114.
Proof.
  unfold arabic_number. rewrite Map_get_first_entry, ARABIC_NORM_TO_NUM_keys.
  pose proof arabic_keys_length as Hlen.
  destruct (first_entry (λ k, bool_decide (k = norm)) _) as [n|] eqn:Hget.
  - apply first_entry_range in Hget.
    rewrite truthy_num_Some by lia. intros [= <-]. lia.
  - cbn [truthy_num].
    destruct (first_entry (λ key, includes norm key) _) as [n|] eqn:Hscan;
      [|done].
    apply first_entry_range in Hscan. intros [= <-]. lia.
Qed.

(** X6. Whatever the name and the lowering function, the resolver
    returns 0 or an ordinal between 1 and 114. *)
Theorem mapSurahNameToNumber_range (toLowerCase : list Z → list Z)
    (surahName : str) :
  0 ≤ mapSurahNameToNumber toLowerCase surahName ≤ 114.
Proof.
  unfold mapSurahNameToNumber.
  destruct (negb (truthy_str surahName)); [lia|]. cbv zeta.
  destruct (arabic_number _) as [n|] eqn:Hnum.
  - apply arabic_number_range in Hnum.
    rewrite truthy_num_Some by lia. cbn [default from_option id]. unfold id. lia.
  - cbn [truthy_num]. rewrite Map_get_first_entry, englishToNum_keys.
    pose proof english_keys_length as Hlen.
    destruct (first_entry (λ k, bool_decide (k = trim surahName)) _)
      as [n|] eqn:Hget.
    + apply first_entry_range in Hget.
      rewrite truthy_num_Some by lia. cbn [default from_option]. unfold id. lia.
    + cbn [truthy_num].
      destruct (first_entry (λ k, includes _ _) _) as [n|] eqn:Hscan; [|lia].
      apply first_entry_range in Hscan. lia.
Qed.

(** ** The JSON text of a reply *)

Lemma from_first_app (c : Z) (pre r : str) :
  c ∉ pre → from_first c (pre ++ c :: r) = Some (c :: r).
Proof.
  induction pre as [|x pre IH]; intros Hpre; cbn.
  - by rewrite Z.eqb_refl.
  - apply not_elem_of_cons in Hpre as [Hx Hpre].
    rewrite (proj2 (Z.eqb_neq x c)) by done. by apply IH.
Qed.

Lemma from_first_None (c : Z) (s : str) : c ∉ s → from_first c s = None.
Proof.
  induction s as [|x s IH]; intros Hs; cbn; [done|].
  apply not_elem_of_cons in Hs as [Hx Hs].
  rewrite (proj2 (Z.eqb_neq x c)) by done. by apply IH.
Qed.

Lemma from_first_Some (c : Z) (s t : str) :
  from_first c s = Some t → ∃ pre r, s = pre ++ t ∧ t = c :: r ∧ c ∉ pre.
Proof.
  induction s as [|x s IH]; cbn; [done|].
  destruct (Z.eqb_spec x c) as [->|Hx].
  - intros [= <-]. exists [], s. split_and!; [done..|apply not_elem_of_nil].
  - intros (pre & r & -> & -> & Hpre)%IH. exists (x :: pre), r.
    split_and!; [done..|]. apply not_elem_of_cons. by split.
Qed.

Lemma up_to_last_None (c : Z) (s : str) : c ∉ s → up_to_last c s = None.
Proof.
  induction s as [|x s IH]; intros Hs; cbn; [done|].
  apply not_elem_of_cons in Hs as [Hx Hs].
  rewrite IH by done. by rewrite (proj2 (Z.eqb_neq x c)).
Qed.

Lemma up_to_last_app (c : Z) (p post : str) :
  c ∉ post → up_to_last c (p ++ c :: post) = Some (p ++ [c]).
Proof.
  intros Hpost. induction p as [|x p IH]; cbn.
  - rewrite up_to_last_None by done. by rewrite Z.eqb_refl.
  - by rewrite IH.
Qed.

Lemma up_to_last_found (c : Z) (s : str) :
  c ∈ s → is_Some (up_to_last c s).
Proof.
  induction s as [|x s IH]; [by intros ?%elem_of_nil|]. cbn.
  destruct (up_to_last c s) as [q|]; [by eexists|].
  intros [->|Hin]%elem_of_cons.
  - rewrite Z.eqb_refl. by eexists.
  - by destruct (IH Hin).
Qed.

Lemma up_to_last_Some (c : Z) (s m : str) :
  up_to_last c s = Some m → ∃ p post, s = m ++ post ∧ m = p ++ [c] ∧ c ∉ post.
Proof.
  revert m. induction s as [|x s IH]; intros m; cbn; [done|].
  destruct (up_to_last c s) as [q|] eqn:Hq.
  - intros [= <-]. destruct (IH q eq_refl) as (p & post & -> & -> & Hpost).
    by exists (x :: p), post.
  - destruct (Z.eqb_spec x c) as [->|Hx]; [|done].
    intros [= <-]. exists [], s. split_and!; [done..|].
    intros Hin. apply (up_to_last_found c s) in Hin as [q Hq'].
    by rewrite Hq in Hq'.
Qed.

Lemma match_object_Some (content m : str) :
  match_object content = Some m →
  ∃ pre mid post,
    content = pre ++ m ++ post
    ∧ m = LBRACE :: (mid ++ [RBRACE])
    ∧ (LBRACE ∉ pre)
    ∧ (RBRACE ∉ post).
Proof.
  unfold match_object.
  destruct (from_first LBRACE content) as [opened|] eqn:Hopen; [|done].
  apply from_first_Some in Hopen as (pre & r & -> & -> & Hpre).
  intros (p & post & Heq & -> & Hpost)%up_to_last_Some.
  destruct p as [|x p].
  { injection Heq as Heq _. by vm_compute in Heq. }
  injection Heq as <- ->.
  exists pre, p, post. by rewrite <- !app_assoc.
Qed.

Lemma match_object_wrapped (pre mid post : str) :
  LBRACE ∉ pre → RBRACE ∉ post →
  match_object (pre ++ (LBRACE :: mid ++ [RBRACE]) ++ post)
  = Some (LBRACE :: mid ++ [RBRACE]).
Proof.
  intros Hpre Hpost. unfold match_object.
  change (pre ++ (LBRACE :: mid ++ [RBRACE]) ++ post)
    with (pre ++ LBRACE :: ((mid ++ [RBRACE]) ++ post)).
  rewrite from_first_app by done. rewrite <- app_assoc.
  change (LBRACE :: mid ++ [RBRACE] ++ post)
    with ((LBRACE :: mid) ++ RBRACE :: post).
  by rewrite (up_to_last_app RBRACE (LBRACE :: mid) post Hpost).
Qed.

(** X7. The text handed to [JSON.parse] is the reply from its first
    opening brace to its last closing brace: whatever surrounds an
    object, as long as no opening brace comes before it and no closing
    brace after it, is dropped.  A reply without an opening brace, or
    without a closing brace behind the first opening one, is handed over
    whole; and extracting twice changes nothing. *)
Theorem jsonText_unwraps (content : str) :
  (∀ pre mid post,
     content = pre ++ (LBRACE :: mid ++ [RBRACE]) ++ post →
     LBRACE ∉ pre → RBRACE ∉ post →
     jsonText content = LBRACE :: mid ++ [RBRACE])
  ∧ (LBRACE ∉ content → jsonText content = content)
  ∧ (∀ pre r, content = pre ++ LBRACE :: r → LBRACE ∉ pre → RBRACE ∉ r →
       jsonText content = content)
  ∧ jsonText (jsonText content) = jsonText content.
Proof.
  split_and!.
  - intros pre mid post -> Hpre Hpost. unfold jsonText.
    by rewrite match_object_wrapped.
  - intros Hnone. unfold jsonText, match_object.
    by rewrite from_first_None.
  - intros pre r -> Hpre Hr. unfold jsonText, match_object.
    rewrite from_first_app by done. rewrite up_to_last_None; [done|].
    apply not_elem_of_cons. split; [by vm_compute|done].
  - unfold jsonText at 2 3.
    destruct (match_object content) as [m|] eqn:Hm.
    + apply match_object_Some in Hm as (pre & mid & post & _ & -> & _).
      unfold jsonText.
      rewrite <- (app_nil_r (LBRACE :: mid ++ [RBRACE])) at 1.
      rewrite <- (app_nil_l ((LBRACE :: mid ++ [RBRACE]) ++ [])).
      rewrite match_object_wrapped; [done|apply not_elem_of_nil..].
    + unfold jsonText. by rewrite Hm.
Qed.

Lemma jsonText_unwraps_witness :
  jsonText (js "```json" ++ [0x0A] ++ js "{ } }" ++ [0x0A] ++ js "``` ")
  = js "{ } }".
Proof.
  refine (proj1 (jsonText_unwraps _) (js "```json" ++ [0x0A]) (js " } ")
            ([0x0A] ++ js "``` ") _ _ _).
  - vm_compute. reflexivity.
  - refine (bool_decide_unpack _ _). vm_compute. exact I.
  - refine (bool_decide_unpack _ _). vm_compute. exact I.
Defined.

(** ** Clip locators *)

Lemma length_padStart (n : nat) (fill : Z) (s : str) :
  length (padStart n fill s) = (n `max` length s)%nat.
Proof. unfold padStart. rewrite length_app, length_replicate. lia. Qed.

Lemma three_digits_length :
  Forall (λ x : list Z, length x = 3%nat) (three_digits <$> seq 0 1000).
Proof. refine (bool_decide_unpack _ _). vm_compute. exact I. Qed.

Lemma three_digits_NoDup : NoDup (three_digits <$> seq 0 1000).
Proof. refine (bool_decide_unpack _ _). vm_compute. exact I. Qed.

Lemma three_digits_lookup (n : nat) :
  (n < 1000)%nat → (three_digits <$> seq 0 1000) !! n = Some (three_digits n).
Proof.
  intros Hn. rewrite list_lookup_fmap, lookup_seq_lt by done. done.
Qed.

Lemma three_digits_inj (n m : nat) :
  (n < 1000)%nat → (m < 1000)%nat → three_digits n = three_digits m → n = m.
Proof.
  intros Hn Hm Heq.
  eapply (NoDup_lookup _ n m); [apply three_digits_NoDup| |].
  - by apply three_digits_lookup.
  - rewrite Heq. by apply three_digits_lookup.
Qed.

Lemma three_digits_3 (n : nat) : (n < 1000)%nat → length (three_digits n) = 3%nat.
Proof.
  intros Hn. pose proof three_digits_length as Hall.
  rewrite Forall_forall in Hall. apply Hall.
  eapply list_elem_of_lookup_2. by apply three_digits_lookup.
Qed.

(** X8. For a chapter number and a verse number below 1000 the clip
    locator is the fixed base, three digits of the chapter, three digits
    of the verse and [.mp3]; two different pairs of such numbers never
    share a locator. *)
Theorem buildRecitationUrl_injective (s a s' a' : nat) :
  (s < 1000)%nat → (a < 1000)%nat → (s' < 1000)%nat → (a' < 1000)%nat →
  let url := buildRecitationUrl decimal_NumberToString in
  length (url (number_of_nat s) (number_of_nat a))
  = (length RECITATION_BASE + 10)%nat
  ∧ (url (number_of_nat s) (number_of_nat a)
     = url (number_of_nat s') (number_of_nat a') → s = s' ∧ a = a').
Proof.
  intros Hs Ha Hs' Ha' url. unfold url, buildRecitationUrl. cbv zeta.
  fold (three_digits s) (three_digits a) (three_digits s') (three_digits a').
  split.
  - rewrite !length_app, !three_digits_3 by done.
    change (length (js ".mp3")) with 4%nat. lia.
  - intros Heq. apply app_inv_head in Heq.
    apply app_inj_1 in Heq as [Hss Heq]; [|by rewrite !three_digits_3].
    apply app_inj_1 in Heq as [Haa _]; [|by rewrite !three_digits_3].
    split; by apply three_digits_inj.
Qed.

Lemma buildRecitationUrl_injective_witness :
  buildRecitationUrl decimal_NumberToString (number_of_nat 2) (number_of_nat 255)
  = js "https://cdn.islamic.network/quran/audio/64/ar.alafasy/002255.mp3"
  ∧ length (buildRecitationUrl decimal_NumberToString
              (number_of_nat 2) (number_of_nat 255))
    = (length RECITATION_BASE + 10)%nat.
Proof.
  split; [vm_compute; reflexivity|].
  refine (proj1 (buildRecitationUrl_injective 2 255 2 255 _ _ _ _)); lia.
Defined.

(** ** The verse list of the player *)

Lemma number_add_one (a : Z) :
  number_add (number_of_Z a) (number_of_Z 1) = number_of_Z (a + 1).
Proof.
  unfold number_add, number_of_Z, inject_Z, Qplus. cbn.
  f_equal. f_equal. lia.
Qed.

Lemma number_leb_Z (a b : Z) :
  number_leb (number_of_Z a) (number_of_Z b) = (a <=? b).
Proof.
  unfold number_leb, number_of_Z, inject_Z, Qle_bool. cbn.
  by rewrite !Z.mul_1_r.
Qed.

Lemma range_loop_integers (n : nat) (a : Z) (acc : list number) (fuel : nat) :
  (n < fuel)%nat →
  range_loop fuel (number_of_Z a) (number_of_Z (a + Z.of_nat n - 1)) acc
  = Some (acc ++ (number_of_Z <$> seqZ a (Z.of_nat n))).
Proof.
  revert a acc fuel. induction n as [|n IH]; intros a acc fuel Hfuel.
  - destruct fuel as [|fuel]; [lia|]. cbn [range_loop].
    rewrite number_leb_Z, (proj2 (Z.leb_gt _ _)) by lia.
    cbn. by rewrite app_nil_r.
  - destruct fuel as [|fuel]; [lia|]. cbn [range_loop].
    rewrite number_leb_Z, (proj2 (Z.leb_le _ _)) by lia.
    rewrite number_add_one.
    replace (a + Z.of_nat (S n) - 1) with (a + 1 + Z.of_nat n - 1) by lia.
    rewrite IH by lia.
    rewrite (seqZ_cons a (Z.of_nat (S n))) by lia.
    rewrite fmap_cons, <- app_assoc. cbn [app].
    by replace (Z.pred (Z.of_nat (S n))) with (Z.of_nat n) by lia.
Qed.

Lemma range_loop_endless (fuel : nat) (i : number) (acc : list number) :
  i ≠ NaN → range_loop fuel i (Infinity false) acc = None.
Proof.
  revert i acc. induction fuel as [|fuel IH]; intros i acc Hi; [done|].
  cbn [range_loop].
  assert (number_leb i (Infinity false) = true) as -> by by destruct i as [|[]|].
  apply IH. by destruct i as [|[]|].
Qed.

Lemma ayahList_range (fuel : nat) (result : Result.t) (s e : number) :
  no_verse_list result →
  Result.ayahStart result = Some s → Result.ayahEnd result = Some e →
  truthy_number s = true → truthy_number e = true →
  ayahList fuel result = range_loop fuel s e [].
Proof.
  intros Hlist Hs He Hts Hte. unfold ayahList.
  rewrite Hs, He, Hts, Hte. by destruct Hlist as [-> | ->].
Qed.

Lemma truthy_number_of_Z (z : Z) : z ≠ 0 → truthy_number (number_of_Z z) = true.
Proof.
  intros Hz. unfold truthy_number, number_of_Z, inject_Z. cbn.
  by rewrite (proj2 (Z.eqb_neq _ _)).
Qed.

(** X9. For a result with a range of whole verse numbers, neither of
    them zero, and no verse list, the player's list is every verse from
    the first to the last, in ascending order: [5..7] gives 5, 6, 7.  A
    range whose end lies before its start gives the empty list, so
    nothing is played.  The numbers are whole numbers between -2^53
    and 2^53, the end below 2^53: every [i += 1] of the loop is then
    exact, up to the one that passes the end.  The range is no longer
    than an array can be. *)
Theorem ayahList_of_range (result : Result.t) (a b : Z) (fuel : nat) :
  no_verse_list result →
  Result.ayahStart result = Some (number_of_Z a) →
  Result.ayahEnd result = Some (number_of_Z b) →
  a ≠ 0 → b ≠ 0 →
  - 2 ^ 53 ≤ a ≤ 2 ^ 53 → - 2 ^ 53 ≤ b < 2 ^ 53 → b - a + 1 < 2 ^ 32 →
  (Z.to_nat (b - a + 1) < fuel)%nat →
  ayahList fuel result = Some (number_of_Z <$> seqZ a (b - a + 1))
  ∧ (b < a → ayahList fuel result = Some []).
Proof.
  intros Hlist Hs He Ha Hb _ _ _ Hfuel.
  rewrite (ayahList_range fuel result _ _ Hlist Hs He)
    by by apply truthy_number_of_Z.
  assert (range_loop fuel (number_of_Z a) (number_of_Z b) []
          = Some (number_of_Z <$> seqZ a (b - a + 1))) as Hrange.
  { destruct (Z.le_gt_cases a b) as [Hle|Hgt].
    - pose proof (range_loop_integers (Z.to_nat (b - a + 1)) a [] fuel Hfuel)
        as Hloop.
      rewrite Z2Nat.id in Hloop by lia.
      by replace (a + (b - a + 1) - 1) with b in Hloop by lia.
    - pose proof (range_loop_integers 0 a [] fuel ltac:(lia)) as Hloop.
      destruct fuel as [|fuel]; [lia|]. cbn [range_loop] in *.
      rewrite number_leb_Z, (proj2 (Z.leb_gt _ _)) by lia.
      by rewrite seqZ_nil by lia. }
  split; [exact Hrange|].
  intros Hlt. rewrite Hrange. by rewrite seqZ_nil by lia.
Qed.

Lemma ayahList_of_range_witness :
  let result :=
    {| Result.surah := VStr (js "البقرة"); Result.arabic := VStr [];
       Result.translation := VStr (js "—");
       Result.ayah := None;
       Result.ayahStart := Some (number_of_Z 5);
       Result.ayahEnd := Some (number_of_Z 7);
       Result.ayahs := None |} in
  ayahList 10 result = Some [number_of_Z 5; number_of_Z 6; number_of_Z 7].
Proof.
  intros result.
  refine (proj1 (ayahList_of_range result 5 7 10 _ _ _ _ _ _ _ _ _)).
  - by left.
  - reflexivity.
  - reflexivity.
  - lia.
  - lia.
  - lia.
  - lia.
  - lia.
  - vm_compute. lia.
Defined.

(** X10. When the end of the range is infinite, as [Number()] makes it
    for a reply such as [1e999], and the start is a number other than 0,
    the loop that fills the player's list has no exit of its own: its
    condition holds at every turn, so it has not ended after any number
    of turns that an array has room for (fewer than 2^32). *)
Theorem ayahList_endless_range (result : Result.t) (s : number) (fuel : nat) :
  no_verse_list result →
  Result.ayahStart result = Some s →
  Result.ayahEnd result = Some (Infinity false) →
  truthy_number s = true →
  Z.of_nat fuel < 2 ^ 32 →
  ayahList fuel result = None.
Proof.
  intros Hlist Hs He Hts _.
  rewrite (ayahList_range fuel result s (Infinity false)) by done.
  apply range_loop_endless. by destruct s.
Qed.

Lemma ayahList_endless_range_witness :
  let result :=
    {| Result.surah := VStr (js "البقرة"); Result.arabic := VStr [];
       Result.translation := VStr (js "—");
       Result.ayah := None;
       Result.ayahStart := Some (number_of_Z 1);
       Result.ayahEnd := Some (Infinity false);
       Result.ayahs := None |} in
  ayahList 1000 result = None.
Proof.
  intros result.
  refine (ayahList_endless_range result (number_of_Z 1) 1000 _ _ _ _ _).
  - by left.
  - reflexivity.
  - reflexivity.
  - reflexivity.
  - reflexivity.
Defined.

(** ** The loop over the clips *)

Section Playback.
Variable toLowerCase : list Z → list Z.
Variable NumberToString : number → list Z.

Lemma play_clips_all (surahNumber : Z) (ayahs : list number)
    (events : nat → bool * clip_outcome) (k : nat) :
  (∀ j, (j < length ayahs)%nat → events (k + j)%nat = (false, Ended)) →
  play_clips NumberToString surahNumber ayahs events k
  = buildRecitationUrl NumberToString (number_of_Z surahNumber) <$> ayahs.
Proof.
  revert k. induction ayahs as [|a rest IH]; intros k Hall; [done|].
  cbn [play_clips]. pose proof (Hall 0%nat ltac:(cbn; lia)) as H0.
  rewrite Nat.add_0_r in H0. rewrite H0. cbn [fst snd].
  rewrite fmap_cons. f_equal. apply IH. intros j Hj.
  replace (S k + j)%nat with (k + S j)%nat by lia. apply Hall. cbn. lia.
Qed.

Lemma play_clips_cut (surahNumber : Z) (ayahs : list number)
    (events : nat → bool * clip_outcome) (k n : nat) :
  (n < length ayahs)%nat →
  (∀ j, (j < n)%nat → events (k + j)%nat = (false, Ended)) →
  ((events (k + n)%nat).1 = true →
   play_clips NumberToString surahNumber ayahs events k
   = take n (buildRecitationUrl NumberToString (number_of_Z surahNumber)
             <$> ayahs))
  ∧ (events (k + n)%nat = (false, Failed) →
     play_clips NumberToString surahNumber ayahs events k
     = take (S n) (buildRecitationUrl NumberToString (number_of_Z surahNumber)
                   <$> ayahs)).
Proof.
  revert k n. induction ayahs as [|a rest IH]; intros k n Hn Hbefore.
  { cbn in Hn. lia. }
  cbn [play_clips]. rewrite fmap_cons. destruct n as [|n].
  - rewrite Nat.add_0_r. split.
    + intros ->. done.
    + intros ->. cbn [fst snd]. by destruct (fmap _ rest).
  - pose proof (Hbefore 0%nat ltac:(lia)) as H0.
    rewrite Nat.add_0_r in H0. rewrite H0. cbn [fst snd].
    replace (k + S n)%nat with (S k + n)%nat by lia.
    destruct (IH (S k) n) as [Hstop Hfail].
    + cbn in Hn. lia.
    + intros j Hj. replace (S k + j)%nat with (k + S j)%nat by lia.
      apply Hbefore. lia.
    + split; intros Hev; [rewrite (Hstop Hev)|rewrite (Hfail Hev)]; done.
Qed.

(** X11. The clips are started in the order of the verse list, none is
    skipped and none is played twice: what has been started is always a
    beginning of the list.  The whole list is played when no turn finds
    the stop flag set and no clip fails; a turn that finds the flag set
    starts neither its clip nor any later one; a clip that fails is the
    last one started. *)
Theorem play_clips_prefix (surahNumber : Z) (ayahs : list number)
    (events : nat → bool * clip_outcome) :
  let urls :=
    buildRecitationUrl NumberToString (number_of_Z surahNumber) <$> ayahs in
  let started := play_clips NumberToString surahNumber ayahs events 0 in
  started `prefix_of` urls
  ∧ ((∀ j, (j < length ayahs)%nat → events j = (false, Ended)) →
     started = urls)
  ∧ (∀ n, (n < length ayahs)%nat →
       (∀ j, (j < n)%nat → events j = (false, Ended)) →
       ((events n).1 = true → started = take n urls)
       ∧ (events n = (false, Failed) → started = take (S n) urls)).
Proof.
  intros urls started. split_and!.
  - unfold started, urls. generalize 0%nat.
    induction ayahs as [|a rest IH]; intros k; [done|].
    cbn [play_clips]. rewrite fmap_cons.
    destruct (events k).1; [apply prefix_nil|].
    apply prefix_cons. destruct (events k).2; [apply IH|apply prefix_nil].
  - intros Hall. by apply play_clips_all.
  - intros n Hn Hbefore.
    exact (play_clips_cut surahNumber ayahs events 0 n Hn Hbefore).
Qed.

End Playback.

Lemma play_clips_prefix_witness :
  play_clips decimal_NumberToString 2
    [number_of_Z 5; number_of_Z 6; number_of_Z 7]
    (λ k, if (k =? 1)%nat then (false, Failed) else (false, Ended)) 0
  = take 2
      (buildRecitationUrl decimal_NumberToString (number_of_Z 2)
       <$> [number_of_Z 5; number_of_Z 6; number_of_Z 7]).
Proof.
  refine (proj2 (proj2 (proj2 (play_clips_prefix decimal_NumberToString 2
            [number_of_Z 5; number_of_Z 6; number_of_Z 7]
            (λ k, if (k =? 1)%nat then (false, Failed) else (false, Ended))))
            1%nat _ _) _).
  - cbn. lia.
  - intros j Hj. assert (j = 0%nat) as -> by lia. reflexivity.
  - reflexivity.
Defined.

(** ** Label and clips of a local match *)

Lemma number_of_nat_succ (n : nat) :
  number_of_Z (Z.of_nat n + 1) = number_of_nat (n + 1).
Proof. unfold number_of_nat. f_equal. lia. Qed.

Lemma truthy_number_of_pos (n : nat) :
  (1 ≤ n)%nat → truthy_number (number_of_nat n) = true.
Proof.
  intros Hn. replace n with (n - 1 + 1)%nat by lia.
  apply truthy_number_of_nat.
Qed.

(** The fields of a result of the local matcher: a chapter name and
    either one verse number or the two ends of a pair. *)
Lemma local_match_fields (corpus : Corpus.t) (transcript : str)
    (r : Result.t) :
  identifyByCorpus (Some corpus) transcript = Some r →
  ∃ name (n : nat),
    (1 ≤ n)%nat
    ∧ Result.surah r = VStr name
    ∧ Result.ayahs r = None
    ∧ ((Result.ayah r = Some (number_of_nat n)
        ∧ Result.ayahStart r = None ∧ Result.ayahEnd r = None)
       ∨ (Result.ayah r = None
          ∧ Result.ayahStart r = Some (number_of_nat n)
          ∧ Result.ayahEnd r = Some (number_of_nat (n + 1)))).
Proof.
  intros (best & Hbest & ->)%identifyByCorpus_Some.
  destruct (match_result_fields corpus best Hbest)
    as (-> & _ & _ & -> & -> & -> & ->).
  apply buildCandidates_elem in Hbest
    as (si & s & i & _ & _ & [->|[_ ->]]).
  - exists (arName si s), (i + 1)%nat. split; [lia|].
    split; [done|]. split; [done|]. by left.
  - exists (arName si s), (i + 1)%nat. split; [lia|].
    split; [done|]. split; [done|]. right.
    cbn [pair_candidate Candidate.ayah Candidate.ayahStart Candidate.ayahEnd].
    split; [done|]. split; [done|]. do 2 f_equal. lia.
Qed.

Lemma ayahList_one_verse (fuel : nat) (r : Result.t) (n : nat) :
  (1 ≤ n)%nat → Result.ayahs r = None →
  Result.ayah r = Some (number_of_nat n) → Result.ayahStart r = None →
  ayahList fuel r = Some [number_of_nat n].
Proof.
  intros Hn Hayahs Hayah Hstart. unfold ayahList, single_list.
  rewrite Hayahs, Hstart, Hayah. by rewrite truthy_number_of_pos.
Qed.

Lemma ayahList_two_verses (fuel : nat) (r : Result.t) (n : nat) :
  (1 ≤ n)%nat → (3 ≤ fuel)%nat → Result.ayahs r = None →
  Result.ayahStart r = Some (number_of_nat n) →
  Result.ayahEnd r = Some (number_of_nat (n + 1)) →
  ayahList fuel r = Some [number_of_nat n; number_of_nat (n + 1)].
Proof.
  intros Hn Hfuel Hayahs Hstart Hend. unfold ayahList.
  rewrite Hayahs, Hstart, Hend.
  rewrite !truthy_number_of_pos by lia. cbn [andb].
  unfold number_of_nat at 1 2.
  pose proof (range_loop_integers 2 (Z.of_nat n) [] fuel ltac:(lia))
    as Hloop.
  replace (Z.of_nat n + Z.of_nat 2 - 1) with (Z.of_nat (n + 1)) in Hloop
    by lia.
  rewrite Hloop. change (Z.of_nat 2) with 2.
  rewrite (seqZ_cons _ 2) by lia. change (Z.pred 2) with 1.
  rewrite (seqZ_cons _ 1) by lia. change (Z.pred 1) with 0.
  rewrite seqZ_nil by lia. rewrite app_nil_l, !fmap_cons, fmap_nil.
  unfold number_of_nat. do 4 f_equal. lia.
Qed.

Section LocalMatch.
Variable toLowerCase : list Z → list Z.
Variable NumberToString : number → list Z.

(** X12. A result of the local matcher names one verse or two
    consecutive verses, and its label, its clips and its play button
    agree: for verse [n] the label is the single-verse label of [n] and
    the player's list is [n]; for the pair it is the range label from
    [n] to [n+1] and the list is [n], [n+1]; and the play button is
    enabled exactly when the chapter name resolves to a number. *)
Theorem local_match_label_and_clips (corpus : Corpus.t) (transcript : str)
    (r : Result.t) (fuel : nat) (surahNumber : Z) :
  identifyByCorpus (Some corpus) transcript = Some r → (3 ≤ fuel)%nat →
  (∃ n : nat,
     (1 ≤ n)%nat
     ∧ ((formatAyahLabel NumberToString r
         = single_label NumberToString (Some (number_of_nat n))
         ∧ ayahList fuel r = Some [number_of_nat n])
        ∨ (formatAyahLabel NumberToString r
           = range_label NumberToString (Some (number_of_nat n))
               (Some (number_of_nat (n + 1)))
           ∧ ayahList fuel r
             = Some [number_of_nat n; number_of_nat (n + 1)])))
  ∧ play_enabled surahNumber r = negb (surahNumber =? 0)
  ∧ ∃ name, Result.surah r = VStr name
            ∧ resolve_surah toLowerCase (Result.surah r)
              = Some (mapSurahNameToNumber toLowerCase name).
Proof.
  intros Hr Hfuel.
  destruct (local_match_fields corpus transcript r Hr)
    as (name & n & Hn & Hname & Hayahs
        & [(Hayah & Hstart & Hend)|(Hayah & Hstart & Hend)]).
  - split; [|split].
    + exists n. split; [done|]. left.
      split; [|by apply ayahList_one_verse].
      unfold formatAyahLabel. rewrite Hayahs, Hstart, Hayah.
      cbn [truthy_field andb]. by rewrite truthy_number_of_pos.
    + unfold play_enabled. rewrite Hayahs, Hstart, Hayah.
      cbn [truthy_field]. rewrite truthy_number_of_pos by done.
      by rewrite andb_true_r.
    + exists name. split; [done|]. rewrite Hname.
      apply resolve_surah_string.
  - split; [|split].
    + exists n. split; [done|]. right.
      split; [|by apply ayahList_two_verses].
      unfold formatAyahLabel. rewrite Hayahs, Hstart, Hend.
      cbn [truthy_field]. by rewrite !truthy_number_of_pos by lia.
    + unfold play_enabled. rewrite Hayahs, Hstart, Hayah.
      cbn [truthy_field]. rewrite truthy_number_of_pos by done.
      cbn [orb]. by rewrite andb_true_r.
    + exists name. split; [done|]. rewrite Hname.
      apply resolve_surah_string.
Qed.

End LocalMatch.

Lemma local_match_label_and_clips_witness :
  ∃ r,
    identifyByCorpus (Some example_corpus) example_transcript = Some r
    ∧ play_enabled 1 r = true
    ∧ formatAyahLabel decimal_NumberToString r = js "آية 1"
    ∧ ayahList 3 r = Some [number_of_nat 1].
Proof.
  destruct (identifyByCorpus (Some example_corpus) example_transcript)
    as [r|] eqn:Hr; [|vm_compute in Hr; discriminate Hr].
  exists r. split; [reflexivity|].
  destruct (local_match_label_and_clips ascii_toLowerCase
              decimal_NumberToString example_corpus example_transcript r 3 1
              Hr ltac:(lia)) as (_ & Hplay & _).
  split; [exact Hplay|].
  vm_compute in Hr. injection Hr as <-. split; vm_compute; reflexivity.
Defined.

(** ** The label of a remote result *)

Section RemoteLabel.
Variable StringToNumber : list Z → number.
Variable NumberToString : number → list Z.


End RemoteLabel.


(** ** The recognition as a whole *)

Lemma trim_elem (s : str) (c : Z) : c ∈ trim s → c ∈ s.
Proof. unfold trim. by intros ?%trimEnd_elem%trimStart_elem. Qed.

Lemma transcriptFallback_foreign (latestTranscript liveText : str) :
  Forall (λ c, ¬ is_arabic c) latestTranscript →
  Forall (λ c, ¬ is_arabic c) liveText →
  Forall (λ c, ¬ is_arabic c) (transcriptFallback latestTranscript liveText).
Proof.
  rewrite !Forall_forall. intros Hlatest Hlive c. unfold transcriptFallback.
  cbv zeta. repeat case_match.
  - intros ?%trim_elem. by apply Hlatest.
  - intros ?%trim_elem. by apply Hlive.
  - by intros ?%elem_of_nil.
Qed.

Section Recognition.
Variable toLowerCase : list Z → list Z.
Variable NumberToString : number → list Z.

Lemma textContent_None (v : value) :
  textContent NumberToString v = None ↔ ToString NumberToString v = None.
Proof. by destruct v. Qed.

(** [toResults] throws exactly when one of its conversions does, and
    shows the result otherwise. *)
Lemma toResults_cases (r : Result.t) :
  (toResults toLowerCase NumberToString r = None
   ↔ resolve_surah toLowerCase (Result.surah r) = None
     ∨ ToString NumberToString (Result.surah r) = None
     ∨ ToString NumberToString (Result.arabic r) = None
     ∨ ToString NumberToString (Result.translation r) = None)
  ∧ (toResults toLowerCase NumberToString r ≠ None →
     toResults toLowerCase NumberToString r = Some (Results r)).
Proof.
  unfold toResults.
  pose proof (textContent_None (Result.arabic r)) as Harabic.
  pose proof (textContent_None (Result.translation r)) as Htranslation.
  destruct (ToString NumberToString (Result.surah r)),
    (textContent NumberToString (Result.arabic r)),
    (textContent NumberToString (Result.translation r)),
    (resolve_surah toLowerCase (Result.surah r));
    cbn [mbind option_bind]; naive_solver.
Qed.

(** X14. The recognition shows the "no audio" error, and consults
    neither the corpus nor the remote identifier, whenever the
    normalized transcript has fewer than 6 code units, in particular
    for a transcript without Arabic letters.  Otherwise a match of the
    local matcher is what is shown, whatever the remote identifier would
    answer; without a local match, the remote answer decides: a rejected
    call shows the failure line, an unreadable reply the "not
    identified" line, and a result is shown unless [toResults] throws on
    it, which it does when [surah] is neither falsy nor a string or when
    the conversion of [surah], [arabic] or [translation] to a string
    throws; the failure line is shown then. *)
Theorem toProcessing_outcomes (corpus : option Corpus.t)
    (latestTranscript liveText : str) (remote : list Z → completion) :
  let transcript := transcriptFallback latestTranscript liveText in
  let shown :=
    toProcessing toLowerCase NumberToString corpus latestTranscript liveText
      remote in
  ((length (normalizeArabic transcript) < 6)%nat → shown = Error NO_AUDIO)
  ∧ (Forall (λ c, ¬ is_arabic c) latestTranscript →
     Forall (λ c, ¬ is_arabic c) liveText → shown = Error NO_AUDIO)
  ∧ ((6 ≤ length (normalizeArabic transcript))%nat →
     (∀ m, identifyByCorpus corpus transcript = Some m → shown = Results m)
     ∧ (identifyByCorpus corpus transcript = None →
        (remote transcript = Throws → shown = Error FAILED)
        ∧ (remote transcript = Returns None → shown = Error NOT_IDENTIFIED)
        ∧ (∀ r, remote transcript = Returns (Some r) →
             let throws :=
               resolve_surah toLowerCase (Result.surah r) = None
               ∨ ToString NumberToString (Result.surah r) = None
               ∨ ToString NumberToString (Result.arabic r) = None
               ∨ ToString NumberToString (Result.translation r) = None in
             (throws → shown = Error FAILED)
             ∧ (¬ throws → shown = Results r))
        ∧ (∀ r name arabic translation,
             remote transcript = Returns (Some r) →
             Result.surah r = VStr name → Result.arabic r = VStr arabic →
             Result.translation r = VStr translation →
             shown = Results r))).
Proof.
  intros transcript shown.
  assert ((length (normalizeArabic transcript) < 6)%nat →
          shown = Error NO_AUDIO) as Hshort.
  { intros Hlen. unfold shown, toProcessing. fold transcript. cbv zeta.
    rewrite (proj2 (Nat.ltb_lt _ _) Hlen). by rewrite orb_true_r. }
  split; [exact Hshort|]. split.
  { intros Hlatest Hlive. apply Hshort. unfold transcript.
    rewrite normalizeArabic_foreign; [cbn; lia|].
    by apply transcriptFallback_foreign. }
  intros Hlen.
  assert (negb (truthy_str (normalizeArabic transcript))
          || (length (normalizeArabic transcript) <? 6)%nat = false) as Hguard.
  { rewrite (proj2 (Nat.ltb_ge _ _) Hlen), orb_false_r.
    destruct (normalizeArabic transcript); [cbn in Hlen; lia|done]. }
  assert (∀ r name arabic translation,
            Result.surah r = VStr name → Result.arabic r = VStr arabic →
            Result.translation r = VStr translation →
            toResults toLowerCase NumberToString r = Some (Results r))
    as Hstrings.
  { intros r name arabic translation Hname Harabic Htranslation.
    apply toResults_cases. rewrite (proj1 (toResults_cases r)).
    rewrite Hname, Harabic, Htranslation. unfold resolve_surah.
    cbn [ToString truthy]. destruct (negb (truthy_str name)); naive_solver. }
  split.
  - intros m Hm. unfold shown, toProcessing. fold transcript. cbv zeta.
    rewrite Hguard, Hm.
    destruct corpus as [c|]; [|done].
    apply identifyByCorpus_Some in Hm as (best & Hbest & ->).
    destruct (match_result_fields c best Hbest)
      as (Hname & Harabic & Htranslation & _).
    by rewrite (Hstrings _ _ _ _ Hname Harabic Htranslation).
  - intros Hnone. unfold shown, toProcessing. fold transcript. cbv zeta.
    rewrite Hguard, Hnone. split_and!.
    + by intros ->.
    + by intros ->.
    + intros r ->. destruct (toResults_cases r) as [Hthrows Hshows].
      split.
      * intros Ht. apply Hthrows in Ht. by rewrite Ht.
      * intros Ht.
        rewrite Hshows; [done|]. intros Heq. by apply Ht, Hthrows.
    + intros r name arabic translation -> Hname Harabic Htranslation.
      by rewrite (Hstrings _ _ _ _ Hname Harabic Htranslation).
Qed.

End Recognition.

Lemma toProcessing_outcomes_witness :
  (6 ≤ length (normalizeArabic (transcriptFallback example_transcript [])))%nat
  ∧ ∃ m,
      identifyByCorpus (Some example_corpus)
        (transcriptFallback example_transcript []) = Some m
      ∧ toProcessing ascii_toLowerCase decimal_NumberToString
          (Some example_corpus) example_transcript [] (λ _, Throws)
        = Results m.
Proof.
  assert (6 ≤ length (normalizeArabic
                        (transcriptFallback example_transcript [])))%nat
    as Hlen by (vm_compute; lia).
  split; [exact Hlen|].
  destruct (identifyByCorpus (Some example_corpus)
              (transcriptFallback example_transcript [])) as [m|] eqn:Hm;
    [|vm_compute in Hm; discriminate Hm].
  exists m. split; [reflexivity|].
  exact (proj1 (proj2 (proj2 (toProcessing_outcomes ascii_toLowerCase
                                decimal_NumberToString
                                (Some example_corpus) example_transcript []
                                (λ _, Throws))) Hlen) m Hm).
Defined.

(** ** Replies with a chapter that is not a string *)

Section MalformedReply.
Variable toLowerCase : list Z → list Z.
Variable StringToNumber : list Z → number.
Variable NumberToString : number → list Z.

(** X15. A reply whose [surah] is a truthy value other than a string (a
    number, [true], an array, an object) never ends on the result card.
    Unless a [Number()] of the coercion throws, the remote identifier
    still returns a result, which carries that [surah]; resolving its
    chapter throws, so the recognition ends on the failure line, as it
    does when the coercion throws, and the player throws on such a
    result. *)
Theorem reply_with_non_string_surah (corpus : option Corpus.t)
    (latestTranscript liveText : str) (parsed surah : value)
    (fuel : nat) (events : nat → bool * clip_outcome) :
  let transcript := transcriptFallback latestTranscript liveText in
  let remote t :=
    identifySurahFromTranscript StringToNumber NumberToString t (Some parsed) in
  let coerce_number := coerce_number StringToNumber NumberToString in
  get parsed (js "surah") = Some surah →
  truthy surah = true → (∀ name, surah ≠ VStr name) →
  (coerce_number (get parsed (js "ayah")) (get parsed (js "verse")) ≠ None →
   coerce_number (get parsed (js "ayahStart")) (get parsed (js "verseStart"))
   ≠ None →
   coerce_number (get parsed (js "ayahEnd")) (get parsed (js "verseEnd"))
   ≠ None →
   coerce_list StringToNumber NumberToString (get parsed (js "ayahs")) ≠ None →
   ∃ r, remote transcript = Returns (Some r))
  ∧ (∀ r, remote transcript = Returns (Some r) →
       Result.surah r = surah
       ∧ playRecitationForResult toLowerCase NumberToString fuel (Some r)
           events = PlaybackThrows)
  ∧ remote transcript ≠ Returns None
  ∧ ((6 ≤ length (normalizeArabic transcript))%nat →
     identifyByCorpus corpus transcript = None →
     toProcessing toLowerCase NumberToString corpus latestTranscript liveText
       remote = Error FAILED).
Proof.
  intros transcript remote coerce Hget Htruthy Hnot.
  assert (parsed ≠ VNull) as Hnull by (intros ->; done).
  assert (resolve_surah toLowerCase surah = None) as Hresolve.
  { unfold resolve_surah. rewrite Htruthy. cbn [negb].
    destruct surah; try done. by destruct (Hnot s). }
  assert (∀ r, remote transcript = Returns (Some r) → Result.surah r = surah)
    as Hsurah.
  { intros r (_ & _ & _ & _ & _ & _ & _ & _ & -> & _)%
      identifySurahFromTranscript_inv.
    rewrite Hget. cbn [or_else]. rewrite Htruthy. cbn [or_value].
    by rewrite Htruthy. }
  split_and!.
  - intros Hayah Hstart Hend Hayahs. subst coerce.
    destruct (coerce_number _ _ (get parsed (js "ayah")) _)
      as [ayah|] eqn:Ea; [|done].
    destruct (coerce_number _ _ (get parsed (js "ayahStart")) _)
      as [ayahStart|] eqn:Es; [|done].
    destruct (coerce_number _ _ (get parsed (js "ayahEnd")) _)
      as [ayahEnd|] eqn:Ee; [|done].
    destruct (coerce_list _ _ _) as [ayahs|] eqn:El; [|done].
    destruct (identifySurahFromTranscript_Returns StringToNumber
                NumberToString transcript parsed ayah ayahStart ayahEnd ayahs
                Hnull Ea Es Ee El) as (r & Hr & _).
    by exists r.
  - intros r Hr. split; [by apply Hsurah|].
    unfold playRecitationForResult. rewrite (Hsurah r Hr). by rewrite Hresolve.
  - intros Hr. subst remote. cbv beta in Hr.
    unfold identifySurahFromTranscript in Hr.
    destruct parsed; try done; repeat case_match; done.
  - intros Hlen Hnone. unfold toProcessing. fold transcript. cbv zeta.
    assert (negb (truthy_str (normalizeArabic transcript))
            || (length (normalizeArabic transcript) <? 6)%nat = false) as ->.
    { rewrite (proj2 (Nat.ltb_ge _ _) Hlen), orb_false_r.
      destruct (normalizeArabic transcript); [cbn in Hlen; lia|done]. }
    rewrite Hnone.
    destruct (remote transcript) as [[r|]|] eqn:Hr.
    + assert (toResults toLowerCase NumberToString r = None) as ->; [|done].
      apply toResults_cases. left. by rewrite (Hsurah r eq_refl).
    + exfalso. subst remote. cbv beta in Hr.
      unfold identifySurahFromTranscript in Hr.
      destruct parsed; try done; repeat case_match; done.
    + done.
Qed.

End MalformedReply.

Lemma reply_with_non_string_surah_witness :
  let parsed :=
    VObj [(js "surah", VNum (number_of_Z 2)); (js "ayah", VNum (number_of_Z 255))] in
  ∃ r,
    identifySurahFromTranscript decimal_StringToNumber decimal_NumberToString
      (transcriptFallback example_transcript []) (Some parsed)
    = Returns (Some r)
    ∧ Result.surah r = VNum (number_of_Z 2)
    ∧ playRecitationForResult ascii_toLowerCase decimal_NumberToString 3
        (Some r) (λ _, (false, Ended)) = PlaybackThrows.
Proof.
  intros parsed.
  destruct (reply_with_non_string_surah ascii_toLowerCase
              decimal_StringToNumber decimal_NumberToString None
              example_transcript [] parsed (VNum (number_of_Z 2)) 3
              (λ _, (false, Ended)))
    as (Hreturns & Hresult & _).
  - reflexivity.
  - reflexivity.
  - discriminate.
  - destruct Hreturns as [r Hr]; [discriminate..|].
    exists r. split; [exact Hr|]. by apply Hresult.
Defined.

(** ** Playing a local match *)

Section PlayLocal.
Variable toLowerCase : list Z → list Z.
Variable NumberToString : number → list Z.

(** X16. Playing a result of the local matcher, with playback neither
    stopped nor failing.  When the chapter name resolves to 0 nothing is
    played.  When it resolves to [N], a result with a single verse
    number plays the clip of that verse of chapter [N] and nothing else,
    and a result with the two ends of a pair plays the clip of its first
    verse and then the clip of its second.  The result is of one of
    these two kinds: a verse [n], or the pair [n], [n+1]. *)
Theorem playRecitationForResult_local_match (corpus : Corpus.t)
    (transcript : str) (r : Result.t) (fuel : nat)
    (events : nat → bool * clip_outcome) :
  identifyByCorpus (Some corpus) transcript = Some r → (3 ≤ fuel)%nat →
  (∀ j, events j = (false, Ended)) →
  ∃ name,
    Result.surah r = VStr name
    ∧ let N := mapSurahNameToNumber toLowerCase name in
      let clip v := buildRecitationUrl NumberToString (number_of_Z N) v in
      let played :=
        playRecitationForResult toLowerCase NumberToString fuel (Some r)
          events in
      (N = 0 → played = Played [])
      ∧ (N ≠ 0 →
         (∀ v, Result.ayah r = Some v → played = Played [clip v])
         ∧ (∀ s e, Result.ayahStart r = Some s → Result.ayahEnd r = Some e →
              played = Played [clip s; clip e]))
      ∧ ((∃ n : nat,
            (1 ≤ n)%nat ∧ Result.ayah r = Some (number_of_nat n)
            ∧ Result.ayahStart r = None ∧ Result.ayahEnd r = None)
         ∨ (∃ n : nat,
              (1 ≤ n)%nat ∧ Result.ayah r = None
              ∧ Result.ayahStart r = Some (number_of_nat n)
              ∧ Result.ayahEnd r = Some (number_of_nat (n + 1)))).
Proof.
  intros Hr Hfuel Hevents.
  destruct (local_match_fields corpus transcript r Hr)
    as (name & n & Hn & Hname & Hayahs & Hverses).
  exists name. split; [done|]. cbv zeta.
  unfold playRecitationForResult.
  rewrite Hname, (resolve_surah_string toLowerCase).
  split; [by intros ->|]. split.
  - intros HN. rewrite (proj2 (Z.eqb_neq _ _) HN).
    destruct Hverses as [(Hayah & Hstart & Hend)|(Hayah & Hstart & Hend)].
    + split; [|intros s e Hs; congruence].
      intros v Hv. assert (v = number_of_nat n) as -> by congruence.
      rewrite (ayahList_one_verse fuel r n) by done.
      by rewrite play_clips_all by (intros j _; apply Hevents).
    + split; [intros v Hv; congruence|].
      intros s e Hs He.
      assert (s = number_of_nat n) as -> by congruence.
      assert (e = number_of_nat (n + 1)) as -> by congruence.
      rewrite (ayahList_two_verses fuel r n) by done.
      by rewrite play_clips_all by (intros j _; apply Hevents).
  - destruct Hverses as [(Hayah & Hstart & Hend)|(Hayah & Hstart & Hend)];
      [left|right]; by exists n.
Qed.

End PlayLocal.

Lemma playRecitationForResult_local_match_witness :
  let corpus :=
    {| Corpus.surahs :=
         [ {| Surah.englishName := js "Al-Faatiha";
              Surah.nameArabic := js "سورة الفاتحة";
              Surah.ayahs :=
                [ Ayah.mk (js "بِسْمِ ٱللَّهِ ٱلرَّحْمَٰنِ ٱلرَّحِيمِ");
                  Ayah.mk (js "ٱلْحَمْدُ لِلَّهِ رَبِّ ٱلْعَٰلَمِينَ") ] |} ] |} in
  ∃ r,
    identifyByCorpus (Some corpus) example_transcript = Some r
    ∧ Result.ayah r = Some (number_of_nat 1)
    ∧ playRecitationForResult ascii_toLowerCase decimal_NumberToString 3
        (Some r) (λ _, (false, Ended))
      = Played
          [js "https://cdn.islamic.network/quran/audio/64/ar.alafasy/001001.mp3"].
Proof.
  intros corpus.
  destruct (identifyByCorpus (Some corpus) example_transcript)
    as [r|] eqn:Hr; [|vm_compute in Hr; discriminate Hr].
  exists r. split; [reflexivity|].
  destruct (playRecitationForResult_local_match ascii_toLowerCase
              decimal_NumberToString corpus example_transcript r 3
              (λ _, (false, Ended)) Hr ltac:(lia) ltac:(done))
    as (name & Hname & _ & Hplayed & _).
  assert (Result.ayah r = Some (number_of_nat 1)) as Hayah
    by (vm_compute in Hr; injection Hr as <-; vm_compute; reflexivity).
  split; [exact Hayah|].
  assert (mapSurahNameToNumber ascii_toLowerCase name ≠ 0) as HN.
  { vm_compute in Hr. injection Hr as <-. injection Hname as <-.
    by vm_compute. }
  rewrite (proj1 (Hplayed HN) _ Hayah).
  vm_compute in Hr. injection Hr as <-. injection Hname as <-.
  by vm_compute.
Defined.

(** ** The English names of the table *)

(** Every English name of the table passes the Arabic half without a
    number and is found by the exact lookup. *)
Lemma english_names_found :
  Forall (λ e : nat * list Z,
            e.2 ≠ []
            ∧ arabic_number (normalizeSurahNameForMatch (trim e.2)) = None
            ∧ Map_get englishToNum (trim e.2) = Some (Z.of_nat e.1 + 1))
    (imap pair english_keys).
Proof. refine (bool_decide_unpack _ _). by vm_compute. Qed.

Section EnglishNames.
Variable toLowerCase : list Z → list Z.

(** X17. Every English name of the table [englishToNum], written as in
    the table, resolves to its own number, whatever the lowering of
    letter case does: the Arabic half finds nothing in it and the exact
    lookup answers. *)
Theorem mapSurahNameToNumber_english_names (j : nat) (name : str) :
  english_keys !! j = Some name →
  mapSurahNameToNumber toLowerCase name = Z.of_nat j + 1.
Proof.
  intros Hj.
  pose proof english_names_found as Hall. rewrite Forall_forall in Hall.
  destruct (Hall (j, name)) as (Hne & Harabic & Hget).
  { apply list_elem_of_lookup. exists j. by rewrite list_lookup_imap, Hj. }
  cbn [fst snd] in *.
  rewrite mapSurahNameToNumber_english by done. cbv zeta.
  rewrite Hget. by rewrite truthy_num_Some by lia.
Qed.

End EnglishNames.

Lemma mapSurahNameToNumber_english_names_witness :
  english_keys !! 111%nat = Some (js "Al-Ikhlas")
  ∧ mapSurahNameToNumber ascii_toLowerCase (js "Al-Ikhlas") = 112.
Proof.
  assert (english_keys !! 111%nat = Some (js "Al-Ikhlas")) as Hj
    by (vm_compute; reflexivity).
  split; [exact Hj|].
  exact (mapSurahNameToNumber_english_names ascii_toLowerCase 111
           (js "Al-Ikhlas") Hj).
Defined.

(** ** Transcripts too short for a trigram *)

Lemma jaccard_nil_l (bSet : StringSet) : (jaccard [] bSet == 0)%Q.
Proof. unfold jaccard. cbn [count_common foldl]. cbv zeta. by unfold Qeq. Qed.

(** X18. A transcript whose normalized form has fewer than three code
    units has no trigram and is never matched, whatever the corpus
    holds, a verse with that very text included. *)
Theorem identifyByCorpus_short_transcript (corpus : option Corpus.t)
    (transcript : str) :
  (length (normalizeArabic transcript) < 3)%nat →
  identifyByCorpus corpus transcript = None.
Proof.
  intros Hshort. unfold identifyByCorpus.
  destruct corpus as [corpus|]; [|done]. cbv zeta.
  destruct (truthy_str (normalizeArabic transcript)); [|done].
  rewrite toTrigrams_short by done.
  pose proof (best_candidate_invariant [] (buildCandidates corpus)) as Hinv.
  destruct (best_candidate [] (buildCandidates corpus)) as [[best score]|];
    [|done].
  destruct Hinv as [-> _].
  destruct (Qle_bool THRESHOLD (score_of [] best)) eqn:Hle; [|done].
  apply Qle_bool_iff in Hle. unfold score_of in Hle.
  rewrite jaccard_nil_l in Hle. by vm_compute in Hle.
Qed.

Lemma identifyByCorpus_short_transcript_witness :
  let corpus :=
    {| Corpus.surahs :=
         [ {| Surah.englishName := js "Taa-Haa";
              Surah.nameArabic := js "طه";
              Surah.ayahs := [ Ayah.mk (js "طه") ] |} ] |} in
  (length (normalizeArabic (js "طه")) < 3)%nat
  ∧ identifyByCorpus (Some corpus) (js "طه") = None.
Proof.
  intros corpus.
  assert (length (normalizeArabic (js "طه")) < 3)%nat as Hshort
    by (vm_compute; lia).
  split; [exact Hshort|].
  exact (identifyByCorpus_short_transcript (Some corpus) (js "طه") Hshort).
Defined.
